(** * Anchor IDL: size estimation, instruction discriminators and borsh layouts

    A shallow embedding of [ts/src/idl.ts] and the two coder modules that
    accompany it (the size estimator with [sighash], and [IdlCoder]).

    Conventions of the embedding:
    - a thrown JavaScript exception is the [Err] case of [result];
    - recursion of the source that follows [Defined] references is not
      structural, so the recursive functions take a [fuel] that bounds the
      call depth; running out of it is the engine's
      "Maximum call stack size exceeded" [RangeError];
    - a JavaScript [number] holding a size is an integer-valued double, an
      infinity or [NaN], and its arithmetic rounds as doubles do;
    - a JavaScript string is the sequence of its UTF-8 bytes. *)

From Stdlib Require Import ZArith NArith List String Ascii Bool Lia Permutation.
From Stdlib Require Import Strings.Byte.
Import ListNotations.

Local Open Scope string_scope.
Local Open Scope list_scope.
Local Open Scope Z_scope.

(** ** Exceptions and the error monad *)

Inductive exn : Type :=
| IdlError_TypeNotFound (name : string)
    (* new IdlError(`Type not found: ${JSON.stringify(..)}`) *)
| IdlError_UserTypesNotProvided
    (* new IdlError("User defined types not provided") *)
| Error_TupleEnumVariants
    (* new Error("Tuple enum variants not yet implemented.") *)
| TypeError_ReduceEmpty
    (* TypeError: Reduce of empty array with no initial value *)
| TypeError_InUndefined
    (* TypeError: Cannot use 'in' operator to search for 'Vec' in undefined *)
| TypeError_Value
    (* a layout was given a value that is not of its shape *)
| RangeError_Value
    (* a number does not fit the width of its layout *)
| RangeError_Overrun
    (* RangeError: encoding overruns Buffer *)
| RangeError_Decode
    (* a read past the end of the buffer, or an invalid flag byte *)
| RangeError_CallStack.
    (* RangeError: Maximum call stack size exceeded *)

Inductive result (A : Type) : Type :=
| Ok (a : A)
| Err (e : exn).

Arguments Ok {A} a.
Arguments Err {A} e.

Definition bind {A B : Type} (r : result A) (k : A -> result B) : result B :=
  match r with
  | Ok a => k a
  | Err e => Err e
  end.

Declare Scope result_scope.
Delimit Scope result_scope with result.
Notation "x <- r ;; k" := (bind r (fun x => k))
  (at level 61, r at next level, right associativity) : result_scope.
Local Open Scope result_scope.

Definition is_Err {A : Type} (r : result A) : Prop :=
  match r with
  | Ok _ => False
  | Err _ => True
  end.

(** [Array.prototype.map] with a callback that may throw: elements are
    visited from the left and the first exception ends the traversal. *)
Section MapM.
Context {A B : Type}.
Variable f : A -> result B.

Fixpoint mapM (l : list A) : result (list B) :=
  match l with
  | [] => Ok []
  | a :: l' => b <- f a ;; bs <- mapM l' ;; Ok (b :: bs)
  end.
End MapM.

(** ** The schema model ([idl.ts]) *)

Inductive IdlType : Type :=
| Bool
| U8
| I8
| U16
| I16
| U32
| I32
| U64
| I64
| U128
| I128
| Bytes
| String
| PublicKey
| Defined (name : string)           (* { Defined: string } *)
| Option (ty : IdlType)             (* { Option: IdlType } *)
| Vec (ty : IdlType)                (* { Vec: IdlType } *)
| Array (ty : IdlType) (size : N).  (* { Array: [IdlType, number] } *)

Record IdlField : Type := mkIdlField {
  field_name : string;
  field_type : IdlType
}.

(** An element of a variant's [fields] array: [IdlEnumFieldsNamed] holds
    [IdlField]s, [IdlEnumFieldsTuple] holds bare [IdlType]s. *)
Inductive IdlEnumField : Type :=
| NamedField (f : IdlField)
| TupleField (ty : IdlType).

Record IdlEnumVariant : Type := mkIdlEnumVariant {
  variant_name : string;
  variant_fields : option (list IdlEnumField)   (* fields?: IdlEnumFields *)
}.

Inductive IdlTypeDefTy : Type :=
| IdlTypeDefTyStruct (fields : list IdlField)          (* kind: "struct" *)
| IdlTypeDefTyEnum (variants : list IdlEnumVariant).   (* kind: "enum" *)

Record IdlTypeDef : Type := mkIdlTypeDef {
  typedef_name : string;
  typedef_type : IdlTypeDefTy
}.

(** Of [Idl] only the members read by the functions below are kept. *)
Record Idl : Type := mkIdl {
  idl_version : string;
  idl_name : string;
  idl_accounts : option (list IdlTypeDef);
  idl_types : option (list IdlTypeDef)
}.

(** [ty[key]] where the source expects an [IdlType] under the key: the
    type stored there by an [Option] or a [Vec] object, [None] standing for
    [undefined]. *)
Definition getProp (ty : IdlType) (key : string) : option IdlType :=
  match ty with
  | Option t => if String.eqb key "Option" then Some t else None
  | Vec t => if String.eqb key "Vec" then Some t else None
  | _ => None
  end.

(** [types.filter((t) => t.name === name)] *)
Definition filterByName (name : string) (types : list IdlTypeDef) : list IdlTypeDef :=
  filter (fun t => String.eqb (typedef_name t) name) types.

(** ** JavaScript numbers that hold sizes

    A JavaScript number is an IEEE 754 double.  The sizes are computed from
    integers with [+], [*] and [Math.max], so every finite value that
    occurs is an integer that a double holds, and a sum or a product is
    the exact one rounded to the nearest double, ties to the even
    significand, or an infinity when that is out of range. *)

Inductive number : Type :=
| Fin (z : Z)
| PosInfinity
| NegInfinity
| NaN.

(** The double nearest to the integer [z].  Below 2^53 in magnitude every
    integer is a double; above, a double has 53 significant bits, so with
    [ulp] the weight of the last of them [z] lies between two consecutive
    multiples of [ulp]; past the largest double the result is an
    infinity. *)
Definition round_double (z : Z) : number :=
  let a := Z.abs z in
  if a <? 2 ^ 53 then Fin z
  else
    let ulp := 2 ^ (Z.log2 a - 52) in
    let q := a / ulp in
    let r := a mod ulp in
    let q' := if 2 * r <? ulp then q
              else if ulp <? 2 * r then q + 1
              else if Z.even q then q else q + 1 in
    let m := q' * ulp in
    if m <? 2 ^ 1024 then Fin (Z.sgn z * m)
    else if 0 <? z then PosInfinity else NegInfinity.

(** [a + b] *)
Definition num_add (a b : number) : number :=
  match a, b with
  | NaN, _ | _, NaN => NaN
  | PosInfinity, NegInfinity | NegInfinity, PosInfinity => NaN
  | PosInfinity, _ | _, PosInfinity => PosInfinity
  | NegInfinity, _ | _, NegInfinity => NegInfinity
  | Fin x, Fin y => round_double (x + y)
  end.

(** [a * n] for a length [n] of the IDL: a number that is a non-negative
    integer, so a double itself. *)
Definition num_mul (a : number) (n : N) : number :=
  match a with
  | NaN => NaN
  | PosInfinity => if N.eqb n 0 then NaN else PosInfinity
  | NegInfinity => if N.eqb n 0 then NaN else NegInfinity
  | Fin x => round_double (x * Z.of_N n)
  end.

(** [Math.max(a, b)] *)
Definition num_max (a b : number) : number :=
  match a, b with
  | NaN, _ | _, NaN => NaN
  | PosInfinity, _ | _, PosInfinity => PosInfinity
  | NegInfinity, x | x, NegInfinity => x
  | Fin x, Fin y => Fin (Z.max x y)
  end.

(** [Math.max(...l)]; with no argument the result is [-Infinity]. *)
Definition Math_max (l : list number) : number :=
  fold_left num_max l NegInfinity.

(** [l.reduce((a, b) => a + b)], which throws on an empty array. *)
Definition reduce_add (l : list number) : result number :=
  match l with
  | [] => Err TypeError_ReduceEmpty
  | x :: l' => Ok (fold_left num_add l' x)
  end.

(** [l.reduce((a, b) => a + b, 0)] *)
Definition reduce_add_from0 (l : list number) : number :=
  fold_left num_add l (Fin 0).

(** ** The size estimator *)

Section AccountSize.

(** The size of a field type, as the enclosing call of [typeSize]
    computes it. *)
Variable tsize : IdlType -> result number.

Definition enumFieldSize (f : IdlEnumField) : result number :=
  match f with
  | TupleField _ => Err Error_TupleEnumVariants
  | NamedField fld => tsize (field_type fld)
  end.

Definition variantSize (variant : IdlEnumVariant) : result number :=
  match variant_fields variant with
  | None => Ok (Fin 0)
  | Some fields =>
      sizes <- mapM enumFieldSize fields ;;
      reduce_add sizes
  end.

Definition accountSize_body (idlAccount : IdlTypeDef) : result number :=
  match typedef_type idlAccount with
  | IdlTypeDefTyEnum variants =>
      variantSizes <- mapM variantSize variants ;;
      Ok (num_add (Math_max variantSizes) (Fin 1))
  | IdlTypeDefTyStruct fields =>
      (* [fields] is a required member of a struct type, so the test
         [fields === undefined] of the source never holds here *)
      sizes <- mapM (fun f => tsize (field_type f)) fields ;;
      Ok (reduce_add_from0 sizes)
  end.

End AccountSize.

Fixpoint typeSize (fuel : nat) (idl : Idl) (ty : IdlType) : result number :=
  match fuel with
  | O => Err RangeError_CallStack
  | S fuel' =>
      match ty with
      | Bool => Ok (Fin 1)
      | U8 => Ok (Fin 1)
      | I8 => Ok (Fin 1)
      | I16 => Ok (Fin 2)
      | U16 => Ok (Fin 2)
      | U32 => Ok (Fin 4)
      | I32 => Ok (Fin 4)
      | U64 => Ok (Fin 8)
      | I64 => Ok (Fin 8)
      | U128 => Ok (Fin 16)
      | I128 => Ok (Fin 16)
      | Bytes => Ok (Fin 1)
      | String => Ok (Fin 1)
      | PublicKey => Ok (Fin 32)
      | Vec _ => Ok (Fin 1)
      | Option inner =>
          s <- typeSize fuel' idl inner ;;
          Ok (num_add (Fin 1) s)
      | Defined name =>
          let filtered :=
            match idl_types idl with
            | Some types => filterByName name types
            | None => []
            end in
          match filtered with
          | [typeDef] => accountSize_body (typeSize fuel' idl) typeDef
          | _ => Err (IdlError_TypeNotFound name)
          end
      | Array arrayTy arraySize =>
          s <- typeSize fuel' idl arrayTy ;;
          Ok (num_mul s arraySize)
      end
  end.

Definition accountSize (fuel : nat) (idl : Idl) (idlAccount : IdlTypeDef) : result number :=
  accountSize_body (typeSize fuel idl) idlAccount.

(** ** Layouts

    The constructors are the layout builders of the borsh package that
    [IdlCoder] calls; every builder takes the property name last.  The
    fixed-width integer builders differ in width and signedness only. *)

#[warnings="-register-all"]
Inductive Layout : Type :=
| borsh_bool (property : option string)
| borsh_uint (span : nat) (property : option string)
| borsh_sint (span : nat) (property : option string)
| borsh_vecU8 (property : option string)
| borsh_str (property : option string)
| borsh_publicKey (property : option string)
| borsh_vec (elementLayout : Layout) (property : option string)
| borsh_option (layout : Layout) (property : option string)
| borsh_array (elementLayout : Layout) (length : N) (property : option string)
| borsh_struct (fields : list Layout) (property : option string)
| borsh_rustEnum (variants : list Layout) (property : option string).

Definition borsh_u8 := borsh_uint 1.
Definition borsh_i8 := borsh_sint 1.
Definition borsh_u16 := borsh_uint 2.
Definition borsh_i16 := borsh_sint 2.
Definition borsh_u32 := borsh_uint 4.
Definition borsh_i32 := borsh_sint 4.
Definition borsh_u64 := borsh_uint 8.
Definition borsh_i64 := borsh_sint 8.
Definition borsh_u128 := borsh_uint 16.
Definition borsh_i128 := borsh_sint 16.

Definition property (l : Layout) : option string :=
  match l with
  | borsh_bool p | borsh_uint _ p | borsh_sint _ p | borsh_vecU8 p
  | borsh_str p | borsh_publicKey p | borsh_vec _ p | borsh_option _ p
  | borsh_array _ _ p | borsh_struct _ p | borsh_rustEnum _ p => p
  end.

(** ** The layout compiler ([IdlCoder]) *)

Section TypeDefLayout.

(** [camelCase] of the camelcase package. *)
Variable camelCase : string -> string.

(** [IdlCoder.fieldLayout(f, types)] for a field that has a name, as the
    enclosing call resolves it. *)
Variable flayout : option string -> IdlType -> result Layout.

Definition enumFieldLayout (f : IdlEnumField) : result Layout :=
  match f with
  | TupleField _ => Err Error_TupleEnumVariants
  | NamedField fld => flayout (Some (field_name fld)) (field_type fld)
  end.

Definition variantLayout (variant : IdlEnumVariant) : result Layout :=
  let name := camelCase (variant_name variant) in
  match variant_fields variant with
  | None => Ok (borsh_struct [] (Some name))
  | Some fields =>
      fieldLayouts <- mapM enumFieldLayout fields ;;
      Ok (borsh_struct fieldLayouts (Some name))
  end.

Definition typeDefLayout_body (typeDef : IdlTypeDef) (name : option string)
  : result Layout :=
  match typedef_type typeDef with
  | IdlTypeDefTyStruct fields =>
      fieldLayouts <-
        mapM (fun field => flayout (Some (field_name field)) (field_type field))
             fields ;;
      Ok (borsh_struct fieldLayouts name)
  | IdlTypeDefTyEnum variants =>
      variants' <- mapM variantLayout variants ;;
      (* [rustEnum(variants).replicate(name)] when a name is given,
         [rustEnum(variants, name)] otherwise *)
      Ok (borsh_rustEnum variants' name)
  end.

End TypeDefLayout.

Fixpoint fieldLayout (camelCase : string -> string) (fuel : nat)
    (name : option string) (ty : IdlType) (types : option (list IdlTypeDef))
    : result Layout :=
  match fuel with
  | O => Err RangeError_CallStack
  | S fuel' =>
      let fieldName := option_map camelCase name in
      match ty with
      | Bool => Ok (borsh_bool fieldName)
      | U8 => Ok (borsh_u8 fieldName)
      | I8 => Ok (borsh_i8 fieldName)
      | U16 => Ok (borsh_u16 fieldName)
      | I16 => Ok (borsh_i16 fieldName)
      | U32 => Ok (borsh_u32 fieldName)
      | I32 => Ok (borsh_i32 fieldName)
      | U64 => Ok (borsh_u64 fieldName)
      | I64 => Ok (borsh_i64 fieldName)
      | U128 => Ok (borsh_u128 fieldName)
      | I128 => Ok (borsh_i128 fieldName)
      | Bytes => Ok (borsh_vecU8 fieldName)
      | String => Ok (borsh_str fieldName)
      | PublicKey => Ok (borsh_publicKey fieldName)
      | Vec _ =>
          (* the element type is read as [field.type.vec] *)
          match getProp ty "vec" with
          | Some inner =>
              l <- fieldLayout camelCase fuel' None inner types ;;
              Ok (borsh_vec l fieldName)
          | None =>
              (* [fieldLayout({ name: undefined, type: undefined }, types)]:
                 the switch on [undefined] reaches ["Vec" in undefined] *)
              Err TypeError_InUndefined
          end
      | Option _ =>
          match getProp ty "Option" with
          | Some inner =>
              l <- fieldLayout camelCase fuel' None inner types ;;
              Ok (borsh_option l fieldName)
          | None => Err TypeError_InUndefined
          end
      | Defined defined =>
          match types with
          | None => Err IdlError_UserTypesNotProvided
          | Some tys =>
              match filterByName defined tys with
              | [typeDef] =>
                  typeDefLayout_body camelCase
                    (fun n t => fieldLayout camelCase fuel' n t (Some tys))
                    typeDef fieldName
              | _ => Err (IdlError_TypeNotFound defined)
              end
          end
      | Array arrayTy arrayLen =>
          innerLayout <- fieldLayout camelCase fuel' None arrayTy types ;;
          Ok (borsh_array innerLayout arrayLen fieldName)
      end
  end.

(** [types] defaults to the empty list. *)
Definition typeDefLayout (camelCase : string -> string) (fuel : nat)
    (typeDef : IdlTypeDef) (types : option (list IdlTypeDef))
    (name : option string) : result Layout :=
  let types' := match types with Some tys => tys | None => [] end in
  typeDefLayout_body camelCase
    (fun n t => fieldLayout camelCase fuel n t (Some types'))
    typeDef name.

(** ** Instruction discriminators ([sighash]) *)

(** Modelled from the spec: [snakeCase] of the snake-case package, which is
    not part of the sources.  The spec asks for the name "normalized to a
    canonical ... snake form"; the model is the package's procedure on
    ASCII text: a word boundary is marked between a lower-case letter or
    digit and an upper-case letter, and before the last capital of a run of
    capitals that is followed by a lower-case letter; every run of
    characters other than letters and digits becomes one boundary; the
    words are put in lower case and joined by underscores. *)
Module SnakeCase.

Local Open Scope list_scope.

Definition between (lo hi : nat) (c : ascii) : bool :=
  let n := nat_of_ascii c in (Nat.leb lo n && Nat.leb n hi)%bool.

Definition is_upper := between 65 90.
Definition is_lower := between 97 122.
Definition is_digit := between 48 57.
Definition is_alnum (c : ascii) : bool :=
  (is_upper c || is_lower c || is_digit c)%bool.

Definition lowerCase (c : ascii) : ascii :=
  if is_upper c then ascii_of_nat (nat_of_ascii c + 32) else c.

Definition NUL : ascii := Ascii.zero.

(** [input.replace(/([a-z0-9])([A-Z])/g, "$1\0$2")] *)
Fixpoint split1 (s : list ascii) : list ascii :=
  match s with
  | a :: (b :: _) as rest =>
      if ((is_lower a || is_digit a) && is_upper b)%bool
      then a :: NUL :: split1 rest
      else a :: split1 rest
  | _ => s
  end.

(** [input.replace(/([A-Z])([A-Z][a-z])/g, "$1\0$2")] *)
Fixpoint split2 (s : list ascii) : list ascii :=
  match s with
  | a :: (b :: c :: _) as rest =>
      if (is_upper a && is_upper b && is_lower c)%bool
      then a :: NUL :: split2 rest
      else a :: split2 rest
  | _ => s
  end.

(** [input.replace(/[^A-Z0-9]+/gi, "\0")], then the split at the
    boundaries; leading and trailing boundaries give no word. *)
Fixpoint words (cur : list ascii) (s : list ascii) : list (list ascii) :=
  match s with
  | [] => match cur with [] => [] | _ => [rev cur] end
  | c :: s' =>
      if is_alnum c then words (c :: cur) s'
      else match cur with
           | [] => words [] s'
           | _ => rev cur :: words [] s'
           end
  end.

Fixpoint join (delimiter : ascii) (ws : list (list ascii)) : list ascii :=
  match ws with
  | [] => []
  | [w] => w
  | w :: ws' => w ++ delimiter :: join delimiter ws'
  end.

(** Modelled from the spec: [snakeCase(input)] of the snake-case package,
    the "snake form" of a name by the procedure described above. *)
Definition snakeCase (input : string) : string :=
  let marked := split2 (split1 (list_ascii_of_string input)) in
  string_of_list_ascii
    (join "_"%char (map (map lowerCase) (words [] marked))).

End SnakeCase.

(** Modelled from the spec: [sha256.digest] of the js-sha256 package, which
    is not part of the sources.  The spec names the function, SHA-256; the
    model follows FIPS 180-4 on 32-bit words held in [N]. *)
Module SHA256.

Local Open Scope N_scope.
Local Open Scope list_scope.

Definition mask32 : N := 0xFFFFFFFF.
Definition add32 (a b : N) : N := N.land (a + b) mask32.
Definition rotr (n x : N) : N :=
  N.lor (N.shiftr x n) (N.land (N.shiftl x (32 - n)) mask32).
Definition shr (n x : N) : N := N.shiftr x n.
Definition not32 (x : N) : N := N.lxor x mask32.

Definition Ch (x y z : N) : N := N.lxor (N.land x y) (N.land (not32 x) z).
Definition Maj (x y z : N) : N :=
  N.lxor (N.land x y) (N.lxor (N.land x z) (N.land y z)).
Definition Sigma0 (x : N) : N := N.lxor (rotr 2 x) (N.lxor (rotr 13 x) (rotr 22 x)).
Definition Sigma1 (x : N) : N := N.lxor (rotr 6 x) (N.lxor (rotr 11 x) (rotr 25 x)).
Definition sigma0 (x : N) : N := N.lxor (rotr 7 x) (N.lxor (rotr 18 x) (shr 3 x)).
Definition sigma1 (x : N) : N := N.lxor (rotr 17 x) (N.lxor (rotr 19 x) (shr 10 x)).

(** The first sixty-four primes. *)
Definition primes : list N :=
  [ 2; 3; 5; 7; 11; 13; 17; 19; 23; 29; 31; 37; 41; 43; 47; 53;
    59; 61; 67; 71; 73; 79; 83; 89; 97; 101; 103; 107; 109; 113; 127; 131;
    137; 139; 149; 151; 157; 163; 167; 173; 179; 181; 191; 193; 197; 199;
    211; 223; 227; 229; 233; 239; 241; 251; 257; 263; 269; 271; 277; 281;
    283; 293; 307; 311 ].

(** The integer part of the cube root of [x], one bit at a time from bit
    [n - 1] down. *)
Fixpoint cube_root (n : nat) (x r : N) : N :=
  match n with
  | O => r
  | S n' =>
      let r' := r + N.shiftl 1 (N.of_nat n') in
      if r' * r' * r' <=? x then cube_root n' x r' else cube_root n' x r
  end.

(** The round constants: the first thirty-two bits of the fractional parts
    of the cube roots of the primes. *)
Definition K : list N :=
  Eval vm_compute in
    map (fun p => N.land (cube_root 40 (N.shiftl p 96) 0) mask32) primes.

Record state : Type := mkState {
  h0 : N; h1 : N; h2 : N; h3 : N; h4 : N; h5 : N; h6 : N; h7 : N
}.

(** The initial hash value: the first thirty-two bits of the fractional
    parts of the square roots of the first eight primes. *)
Definition H0 : state :=
  Eval vm_compute in
    let h := fun p => N.land (N.sqrt (N.shiftl p 64)) mask32 in
    mkState (h 2) (h 3) (h 5) (h 7) (h 11) (h 13) (h 17) (h 19).

(** Big-endian words of a block of bytes. *)
Fixpoint be_words (bs : list N) : list N :=
  match bs with
  | a :: b :: c :: d :: bs' =>
      (N.shiftl a 24 + N.shiftl b 16 + N.shiftl c 8 + d) :: be_words bs'
  | _ => []
  end.

(** The message schedule: [n] further words from the window of the last
    sixteen. *)
Fixpoint schedule (n : nat) (window : list N) : list N :=
  match n with
  | O => []
  | S n' =>
      let w := add32 (add32 (sigma1 (nth 14 window 0)) (nth 9 window 0))
                     (add32 (sigma0 (nth 1 window 0)) (nth 0 window 0)) in
      w :: schedule n' (tl window ++ [w])
  end.

Definition round (s : state) (kw : N * N) : state :=
  let (k, w) := kw in
  let T1 := add32 (add32 (add32 (h7 s) (Sigma1 (h4 s)))
                         (add32 (Ch (h4 s) (h5 s) (h6 s)) k)) w in
  let T2 := add32 (Sigma0 (h0 s)) (Maj (h0 s) (h1 s) (h2 s)) in
  mkState (add32 T1 T2) (h0 s) (h1 s) (h2 s)
          (add32 (h3 s) T1) (h4 s) (h5 s) (h6 s).

Definition compress (s : state) (block : list N) : state :=
  let w16 := be_words block in
  let W := w16 ++ schedule 48 w16 in
  let s' := fold_left round (combine K W) s in
  mkState (add32 (h0 s) (h0 s')) (add32 (h1 s) (h1 s'))
          (add32 (h2 s) (h2 s')) (add32 (h3 s) (h3 s'))
          (add32 (h4 s) (h4 s')) (add32 (h5 s) (h5 s'))
          (add32 (h6 s) (h6 s')) (add32 (h7 s) (h7 s')).

(** The bytes of [x] on [n] bytes, most significant first. *)
Fixpoint be_bytes (n : nat) (x : N) : list N :=
  match n with
  | O => []
  | S n' => be_bytes n' (N.shiftr x 8) ++ [N.land x 0xFF]
  end.

(** The message, the byte 0x80, zero bytes up to 56 modulo 64, and the
    length of the message in bits on eight bytes. *)
Definition pad (msg : list N) : list N :=
  let len := N.of_nat (List.length msg) in
  let zeros := N.to_nat ((55 + 64 - len mod 64) mod 64) in
  msg ++ 0x80 :: repeat 0 zeros ++ be_bytes 8 (8 * len).

Fixpoint blocks (n : nat) (s : state) (bs : list N) : state :=
  match n with
  | O => s
  | S n' => blocks n' (compress s (firstn 64 bs)) (skipn 64 bs)
  end.

Definition byte_of (x : N) : byte :=
  match Byte.of_N x with
  | Some b => b
  | None => x00
  end.

Definition word_bytes (x : N) : list byte := map byte_of (be_bytes 4 x).

(** Modelled from the spec: [sha256.digest(message)] of the js-sha256
    package, the thirty-two bytes of the SHA-256 digest of the message. *)
Definition digest (msg : list byte) : list byte :=
  let padded := pad (map Byte.to_N msg) in
  let s := blocks (List.length padded / 64) H0 padded in
  word_bytes (h0 s) ++ word_bytes (h1 s) ++ word_bytes (h2 s) ++
  word_bytes (h3 s) ++ word_bytes (h4 s) ++ word_bytes (h5 s) ++
  word_bytes (h6 s) ++ word_bytes (h7 s).

End SHA256.

(** [sighash] of the source; the template literal is a concatenation and
    [slice(0, 8)] keeps the first eight bytes. *)
Definition sighash (nameSpace ixName : string) : list byte :=
  let name := SnakeCase.snakeCase ixName in
  let preimage := (nameSpace ++ ":" ++ name)%string in
  firstn 8 (SHA256.digest (list_byte_of_string preimage)).

(** ** Values and the byte format of the layouts

    The layouts of the borsh package (and of buffer-layout under it) are
    not part of the sources; their values and their byte format are
    modelled from the spec.  The spec gives the format: unsigned and signed
    little-endian integers of the stated width, [Bytes] and [String] as
    blobs behind a four-byte little-endian length, [PublicKey] as a fixed
    32-byte blob, a sequence behind a four-byte length for [Vec], a
    one-byte presence flag followed conditionally by the inner layout for
    [Option], exactly [n] consecutive elements for [Array], the fields in
    declaration order for a struct, and for an enum one byte equal to the
    zero-based index of the variant followed by the layout of that
    variant.  A value that a layout cannot hold is rejected, and so is a
    read from too few bytes. *)

(** Modelled from the spec: the JavaScript values that the layouts of the
    borsh package encode and decode.  An object is the list of its
    properties; the value of an enum is an object with one property, named
    after its variant. *)
#[warnings="-register-all"]
Inductive Value : Type :=
| VBool (b : bool)
| VNumber (z : Z)                          (* a number, or a BN *)
| VBuffer (data : list byte)
| VString (s : string)
| VPublicKey (bytes : list byte)           (* [key.toBuffer()] *)
| VNull
| VArray (items : list Value)
| VObject (props : list (string * Value)).

Fixpoint lookup (key : string) (props : list (string * Value)) : option Value :=
  match props with
  | [] => None
  | (k, v) :: props' => if String.eqb k key then Some v else lookup key props'
  end.

(** [dest[key] = v] *)
Fixpoint assign (key : string) (v : Value) (dest : list (string * Value))
  : list (string * Value) :=
  match dest with
  | [] => [(key, v)]
  | (k, w) :: dest' =>
      if String.eqb k key then (k, v) :: dest'
      else (k, w) :: assign key v dest'
  end.

Definition byte_of_Z (z : Z) : byte := SHA256.byte_of (Z.to_N (z mod 256)).
Definition Z_of_byte (b : byte) : Z := Z.of_N (Byte.to_N b).

(** The [n] low bytes of [z], least significant first. *)
Fixpoint le_bytes (n : nat) (z : Z) : list byte :=
  match n with
  | O => []
  | S n' => byte_of_Z z :: le_bytes n' (z / 256)
  end.

Fixpoint le_value (bs : list byte) : Z :=
  match bs with
  | [] => 0
  | b :: bs' => Z_of_byte b + 256 * le_value bs'
  end.

(** [take n b]: the first [n] bytes of [b] and the bytes after them. *)
Definition take (n : nat) (b : list byte) : result (list byte * list byte) :=
  if Nat.ltb (List.length b) n then Err RangeError_Decode
  else Ok (firstn n b, skipn n b).

Definition encode_blob (data : list byte) : result (list byte) :=
  let len := Z.of_nat (List.length data) in
  if len <? 2 ^ 32 then Ok (le_bytes 4 len ++ data)%list
  else Err RangeError_Value.

Definition decode_blob (b : list byte) : result (list byte * list byte) :=
  r <- take 4 b ;;
  take (Z.to_nat (le_value (fst r))) (snd r).

(** Modelled from the spec: the parts of [encode] for the fields of a
    struct and for the variants of an enum. *)
Section EncodeParts.
Variable enc : Layout -> Value -> result (list byte).
Variable props : list (string * Value).

(** One field of a struct: the value stored under the property of the
    field layout. *)
Definition encodeField (fd : Layout) : result (list byte) :=
  match property fd with
  | Some p =>
      match lookup p props with
      | Some fv => enc fd fv
      | None => Err TypeError_Value
      end
  | None => Err TypeError_Value
  end.

(** The variant of an enum value is the first one whose property the
    value has; its index is written on one byte before its layout. *)
Fixpoint inferVariant (vs : list Layout) (index : nat) : result (list byte) :=
  match vs with
  | [] => Err TypeError_Value
  | vlo :: vs' =>
      match property vlo with
      | Some p =>
          match lookup p props with
          | Some payload =>
              if Nat.ltb index 256 then
                bs <- enc vlo payload ;;
                Ok (byte_of_Z (Z.of_nat index) :: bs)
              else Err RangeError_Value
          | None => inferVariant vs' (S index)
          end
      | None => inferVariant vs' (S index)
      end
  end.
End EncodeParts.

(** Modelled from the spec: [layout.encode(src, b)] of the borsh package,
    as the bytes that it writes; the format is the one the spec gives for
    each kind of layout. *)
Fixpoint encode (l : Layout) (src : Value) {struct l} : result (list byte) :=
  match l with
  | borsh_bool _ =>
      match src with
      | VBool b => Ok [if b then x01 else x00]
      | _ => Err TypeError_Value
      end
  | borsh_uint span _ =>
      match src with
      | VNumber z =>
          if (0 <=? z) && (z <? 2 ^ (8 * Z.of_nat span))
          then Ok (le_bytes span z)
          else Err RangeError_Value
      | _ => Err TypeError_Value
      end
  | borsh_sint span _ =>
      match src with
      | VNumber z =>
          let half := 2 ^ (8 * Z.of_nat span - 1) in
          if (- half <=? z) && (z <? half)
          then Ok (le_bytes span (z mod 2 ^ (8 * Z.of_nat span)))
          else Err RangeError_Value
      | _ => Err TypeError_Value
      end
  | borsh_vecU8 _ =>
      match src with
      | VBuffer data => encode_blob data
      | _ => Err TypeError_Value
      end
  | borsh_str _ =>
      match src with
      | VString s => encode_blob (list_byte_of_string s)
      | _ => Err TypeError_Value
      end
  | borsh_publicKey _ =>
      match src with
      | VPublicKey bytes =>
          if Nat.eqb (List.length bytes) 32 then Ok bytes
          else Err TypeError_Value
      | _ => Err TypeError_Value
      end
  | borsh_vec elementLayout _ =>
      match src with
      | VArray items =>
          let len := Z.of_nat (List.length items) in
          if len <? 2 ^ 32 then
            chunks <- mapM (encode elementLayout) items ;;
            Ok (le_bytes 4 len ++ List.concat chunks)%list
          else Err RangeError_Value
      | _ => Err TypeError_Value
      end
  | borsh_option layout _ =>
      match src with
      | VNull => Ok [x00]
      | _ => bs <- encode layout src ;; Ok (x01 :: bs)
      end
  | borsh_array elementLayout length _ =>
      match src with
      | VArray items =>
          if N.eqb (N.of_nat (List.length items)) length then
            chunks <- mapM (encode elementLayout) items ;;
            Ok (List.concat chunks)
          else Err TypeError_Value
      | _ => Err TypeError_Value
      end
  | borsh_struct fields _ =>
      match src with
      | VObject props =>
          chunks <- mapM (encodeField encode props) fields ;;
          Ok (List.concat chunks)
      | _ => Err TypeError_Value
      end
  | borsh_rustEnum variants _ =>
      match src with
      | VObject props =>
          inferVariant encode props variants O
      | _ => Err TypeError_Value
      end
  end.

Section DecodeSeq.
Variable dec : list byte -> result (Value * list byte).

(** [count] consecutive elements. *)
Fixpoint decode_seq (count : nat) (b : list byte)
  : result (list Value * list byte) :=
  match count with
  | O => Ok ([], b)
  | S count' =>
      r <- dec b ;;
      rs <- decode_seq count' (snd r) ;;
      Ok (fst r :: fst rs, snd rs)
  end.
End DecodeSeq.

(** Modelled from the spec: the parts of [decode] for the fields of a
    struct and for the variants of an enum. *)
Section DecodeParts.
Variable dec : Layout -> list byte -> result (Value * list byte).

(** The fields of a struct in order, each stored under its property. *)
Fixpoint decodeFields (fds : list Layout) (b : list byte)
    (dest : list (string * Value)) : result (Value * list byte) :=
  match fds with
  | [] => Ok (VObject dest, b)
  | fd :: fds' =>
      r <- dec fd b ;;
      decodeFields fds' (snd r)
        match property fd with
        | Some p => assign p (fst r) dest
        | None => dest
        end
  end.

(** The variant registered under [index], read from [b]. *)
Fixpoint decodeVariant (b : list byte) (vs : list Layout) (index : nat)
  : result (Value * list byte) :=
  match vs, index with
  | [], _ => Err RangeError_Decode
  | vlo :: _, O =>
      p <- dec vlo b ;;
      Ok (VObject match property vlo with
                  | Some name => [(name, fst p)]
                  | None => []
                  end, snd p)
  | _ :: vs', S index' => decodeVariant b vs' index'
  end.
End DecodeParts.

(** Modelled from the spec: [layout.decode(b)] of the borsh package;
    [decode l b] reads a value of the layout from the front of [b] and
    returns it with the bytes that follow. *)
Fixpoint decode (l : Layout) (b : list byte) {struct l}
  : result (Value * list byte) :=
  match l with
  | borsh_bool _ =>
      r <- take 1 b ;;
      match fst r with
      | [x00] => Ok (VBool false, snd r)
      | [x01] => Ok (VBool true, snd r)
      | _ => Err RangeError_Decode
      end
  | borsh_uint span _ =>
      r <- take span b ;;
      Ok (VNumber (le_value (fst r)), snd r)
  | borsh_sint span _ =>
      r <- take span b ;;
      let u := le_value (fst r) in
      let half := 2 ^ (8 * Z.of_nat span - 1) in
      Ok (VNumber (if u <? half then u else u - 2 * half), snd r)
  | borsh_vecU8 _ =>
      r <- decode_blob b ;;
      Ok (VBuffer (fst r), snd r)
  | borsh_str _ =>
      r <- decode_blob b ;;
      Ok (VString (string_of_list_byte (fst r)), snd r)
  | borsh_publicKey _ =>
      r <- take 32 b ;;
      Ok (VPublicKey (fst r), snd r)
  | borsh_vec elementLayout _ =>
      r <- take 4 b ;;
      rs <- decode_seq (decode elementLayout)
              (Z.to_nat (le_value (fst r))) (snd r) ;;
      Ok (VArray (fst rs), snd rs)
  | borsh_option layout _ =>
      r <- take 1 b ;;
      match fst r with
      | [x00] => Ok (VNull, snd r)
      | [x01] => decode layout (snd r)
      | _ => Err RangeError_Decode
      end
  | borsh_array elementLayout length _ =>
      rs <- decode_seq (decode elementLayout) (N.to_nat length) b ;;
      Ok (VArray (fst rs), snd rs)
  | borsh_struct fields _ =>
      decodeFields decode fields b []
  | borsh_rustEnum variants _ =>
      r <- take 1 b ;;
      decodeVariant decode (snd r) variants (Z.to_nat (le_value (fst r)))
  end.

(** ** The account that stores the IDL *)

Record IdlProgramAccount : Type := mkIdlProgramAccount {
  authority : list byte;   (* the 32 bytes of the [PublicKey] *)
  data : list byte
}.

Definition IDL_ACCOUNT_LAYOUT : Layout :=
  borsh_struct [borsh_publicKey (Some "authority"); borsh_vecU8 (Some "data")]
               None.

Definition accountValue (acc : IdlProgramAccount) : Value :=
  VObject [("authority", VPublicKey (authority acc));
           ("data", VBuffer (data acc))].

Definition decodeIdlAccount (data : list byte) : result IdlProgramAccount :=
  r <- decode IDL_ACCOUNT_LAYOUT data ;;
  match fst r with
  | VObject props =>
      match lookup "authority" props, lookup "data" props with
      | Some (VPublicKey a), Some (VBuffer d) => Ok (mkIdlProgramAccount a d)
      | _, _ => Err TypeError_Value
      end
  | _ => Err TypeError_Value
  end.

(** The layout writes into [Buffer.alloc(1000)]; a write past its end
    throws, and the result is the slice of what was written. *)
Definition encodeIdlAccount (acc : IdlProgramAccount) : result (list byte) :=
  bs <- encode IDL_ACCOUNT_LAYOUT (accountValue acc) ;;
  if Nat.leb (List.length bs) 1000 then Ok bs else Err RangeError_Overrun.

(** ** Reference definitions for the statements *)

Definition sum_sizes (sizes : list Z) : Z := fold_right Z.add 0 sizes.

(** The largest of a non-empty list of sizes. *)
Definition max_sizes (s : Z) (sizes : list Z) : Z := fold_right Z.max s sizes.

(** [VariantContribution tsize v s]: the variant [v] has no [fields]
    property and [s] is 0, or it has a non-empty list of named fields whose
    sizes under [tsize], none negative, add up to [s], below 2^53. *)
Inductive VariantContribution (tsize : IdlType -> result number)
  : IdlEnumVariant -> Z -> Prop :=
| contribution_absent (name : string) :
    VariantContribution tsize (mkIdlEnumVariant name None) 0
| contribution_named (name : string) (f : IdlField) (fields : list IdlField)
    (sizes : list Z) :
    Forall2 (fun fld s => tsize (field_type fld) = Ok (Fin s)) (f :: fields) sizes ->
    Forall (fun s => 0 <= s) sizes ->
    sum_sizes sizes < 2 ^ 53 ->
    VariantContribution tsize
      (mkIdlEnumVariant name (Some (map NamedField (f :: fields))))
      (sum_sizes sizes).

(** The values that a layout holds: the domain of its type. *)
Section FitsParts.
Variable fit : Layout -> Value -> Prop.

(** The properties of a struct value are those of the field layouts, in
    the order of the fields. *)
Fixpoint fitsFields (fds : list Layout) (props : list (string * Value)) : Prop :=
  match fds, props with
  | [], [] => True
  | fd :: fds', (k, x) :: props' =>
      property fd = Some k /\ fit fd x /\ fitsFields fds' props'
  | _, _ => False
  end.

(** The single property of an enum value is that of some variant, the
    first of that name, and its index fits one byte. *)
Fixpoint fitsVariant (name : string) (payload : Value) (vs : list Layout)
    (index : nat) : Prop :=
  match vs with
  | [] => False
  | vlo :: vs' =>
      match property vlo with
      | Some p =>
          if String.eqb name p
          then (index < 256)%nat /\ fit vlo payload
          else fitsVariant name payload vs' (S index)
      | None => fitsVariant name payload vs' (S index)
      end
  end.
End FitsParts.

Fixpoint fits (l : Layout) (v : Value) {struct l} : Prop :=
  match l with
  | borsh_bool _ => exists b, v = VBool b
  | borsh_uint span _ =>
      exists z, v = VNumber z /\ 0 <= z < 2 ^ (8 * Z.of_nat span)
  | borsh_sint span _ =>
      exists z, v = VNumber z /\
                - 2 ^ (8 * Z.of_nat span - 1) <= z < 2 ^ (8 * Z.of_nat span - 1)
  | borsh_vecU8 _ =>
      exists data, v = VBuffer data /\ Z.of_nat (List.length data) < 2 ^ 32
  | borsh_str _ =>
      exists s, v = VString s /\
                Z.of_nat (List.length (list_byte_of_string s)) < 2 ^ 32
  | borsh_publicKey _ =>
      exists bytes, v = VPublicKey bytes /\ List.length bytes = 32%nat
  | borsh_vec elementLayout _ =>
      exists items, v = VArray items /\
                    Z.of_nat (List.length items) < 2 ^ 32 /\
                    Forall (fits elementLayout) items
  | borsh_option layout _ => v = VNull \/ fits layout v
  | borsh_array elementLayout length _ =>
      exists items, v = VArray items /\
                    N.of_nat (List.length items) = length /\
                    Forall (fits elementLayout) items
  | borsh_struct fields _ =>
      exists props, v = VObject props /\
                    NoDup (map fst props) /\
                    fitsFields fits fields props
  | borsh_rustEnum variants _ =>
      exists name payload, v = VObject [(name, payload)] /\
                           fitsVariant fits name payload variants O
  end.

(** Induction on layouts, with the hypothesis for every field of a struct
    and every variant of an enum. *)
Section LayoutInduction.
Variable P : Layout -> Prop.
Hypothesis P_bool : forall p, P (borsh_bool p).
Hypothesis P_uint : forall span p, P (borsh_uint span p).
Hypothesis P_sint : forall span p, P (borsh_sint span p).
Hypothesis P_vecU8 : forall p, P (borsh_vecU8 p).
Hypothesis P_str : forall p, P (borsh_str p).
Hypothesis P_publicKey : forall p, P (borsh_publicKey p).
Hypothesis P_vec : forall l p, P l -> P (borsh_vec l p).
Hypothesis P_option : forall l p, P l -> P (borsh_option l p).
Hypothesis P_array : forall l n p, P l -> P (borsh_array l n p).
Hypothesis P_struct : forall fields p, Forall P fields -> P (borsh_struct fields p).
Hypothesis P_rustEnum :
  forall variants p, Forall P variants -> P (borsh_rustEnum variants p).

Fixpoint Layout_nested_ind (l : Layout) : P l :=
  let all :=
    fix all (ls : list Layout) : Forall P ls :=
      match ls with
      | [] => Forall_nil P
      | l' :: ls' => Forall_cons l' (Layout_nested_ind l') (all ls')
      end in
  match l with
  | borsh_bool p => P_bool p
  | borsh_uint span p => P_uint span p
  | borsh_sint span p => P_sint span p
  | borsh_vecU8 p => P_vecU8 p
  | borsh_str p => P_str p
  | borsh_publicKey p => P_publicKey p
  | borsh_vec l' p => P_vec l' p (Layout_nested_ind l')
  | borsh_option l' p => P_option l' p (Layout_nested_ind l')
  | borsh_array l' n p => P_array l' n p (Layout_nested_ind l')
  | borsh_struct fields p => P_struct fields p (all fields)
  | borsh_rustEnum variants p => P_rustEnum variants p (all variants)
  end.
End LayoutInduction.

(** The values of a type that refers to no type definition: booleans,
    integers of the range of the type, buffers and strings of fewer than
    2^32 bytes, keys of 32 bytes, [null] or a value of the inner type for
    [Option], arrays of the declared length for [Array].  The values of a
    [Defined] type depend on the definitions and are left out. *)
Fixpoint inDomain (ty : IdlType) (v : Value) {struct ty} : Prop :=
  let unsigned := fun bits => exists z, v = VNumber z /\ 0 <= z < 2 ^ bits in
  let signed := fun bits =>
    exists z, v = VNumber z /\ - 2 ^ (bits - 1) <= z < 2 ^ (bits - 1) in
  match ty with
  | Bool => exists b, v = VBool b
  | U8 => unsigned 8
  | I8 => signed 8
  | U16 => unsigned 16
  | I16 => signed 16
  | U32 => unsigned 32
  | I32 => signed 32
  | U64 => unsigned 64
  | I64 => signed 64
  | U128 => unsigned 128
  | I128 => signed 128
  | Bytes => exists data, v = VBuffer data /\ Z.of_nat (List.length data) < 2 ^ 32
  | String =>
      exists s, v = VString s /\
                Z.of_nat (List.length (list_byte_of_string s)) < 2 ^ 32
  | PublicKey => exists bytes, v = VPublicKey bytes /\ List.length bytes = 32%nat
  | Defined _ => False
  | Option inner => v = VNull \/ inDomain inner v
  | Vec inner =>
      exists items, v = VArray items /\
                    Z.of_nat (List.length items) < 2 ^ 32 /\
                    Forall (inDomain inner) items
  | Array inner size =>
      exists items, v = VArray items /\
                    N.of_nat (List.length items) = size /\
                    Forall (inDomain inner) items
  end.

(** [Roundtrip l]: every value of the domain of [l] is encoded, and
    decoding the bytes, whatever follows them, gives the value back and
    leaves what follows. *)
Definition Roundtrip (l : Layout) : Prop :=
  forall v, fits l v ->
    exists bs, encode l v = Ok bs /\
               forall rest, decode l (bs ++ rest) = Ok (v, rest).

(** ** Classes of types and schemas used in the statements *)

(** The number of [Option] and [Array] wrappers around a type: the depth of
    the calls that [typeSize] and [fieldLayout] make on it when no
    [Defined] reference is followed. *)
Fixpoint depth (ty : IdlType) : nat :=
  match ty with
  | Option inner => S (depth inner)
  | Array inner _ => S (depth inner)
  | _ => O
  end.

(** No [Defined] reference is reached through [Option] and [Array]; what a
    [Vec] holds is not looked at. *)
Fixpoint simpleType (ty : IdlType) : bool :=
  match ty with
  | Defined _ => false
  | Option inner => simpleType inner
  | Array inner _ => simpleType inner
  | _ => true
  end.

(** A [Vec] is reached through [Option] and [Array]. *)
Fixpoint reachesVec (ty : IdlType) : bool :=
  match ty with
  | Vec _ => true
  | Option inner => reachesVec inner
  | Array inner _ => reachesVec inner
  | _ => false
  end.

(** The types whose values all have the same number of bytes: the
    fixed-width primitives and the arrays of such types. *)
Fixpoint fixedWidth (ty : IdlType) : bool :=
  match ty with
  | Bool | U8 | I8 | U16 | I16 | U32 | I32 | U64 | I64 | U128 | I128
  | PublicKey => true
  | Array inner _ => fixedWidth inner
  | _ => false
  end.

(** The types built from the fixed-width primitives with [Option] and
    [Array]: no [Bytes], [String], [Vec] or [Defined] is reached. *)
Fixpoint boundedWidth (ty : IdlType) : bool :=
  match ty with
  | Bool | U8 | I8 | U16 | I16 | U32 | I32 | U64 | I64 | U128 | I128
  | PublicKey => true
  | Option inner => boundedWidth inner
  | Array inner _ => boundedWidth inner
  | _ => false
  end.

(** [Wraps name ty]: [ty] is the reference [Defined name], possibly inside
    [Option] and [Array]. *)
Inductive Wraps (name : string) : IdlType -> Prop :=
| wraps_defined : Wraps name (Defined name)
| wraps_option (inner : IdlType) : Wraps name inner -> Wraps name (Option inner)
| wraps_array (inner : IdlType) (size : N) :
    Wraps name inner -> Wraps name (Array inner size).

(** The types of the named fields of an enum variant. *)
Definition namedTypes (fields : list IdlEnumField) : list IdlType :=
  flat_map (fun f => match f with
                     | NamedField fld => [field_type fld]
                     | TupleField _ => []
                     end) fields.

(** The types of the named fields of a type definition. *)
Definition fieldTypes (typeDef : IdlTypeDef) : list IdlType :=
  match typedef_type typeDef with
  | IdlTypeDefTyStruct fields => map field_type fields
  | IdlTypeDefTyEnum variants =>
      flat_map (fun v => match variant_fields v with
                         | Some fields => namedTypes fields
                         | None => []
                         end) variants
  end.

(** A number other than a negative integer. *)
Definition notNegative (n : number) : Prop :=
  match n with
  | Fin z => 0 <= z
  | _ => True
  end.




(** * Properties *)

(** ** The error monad and [mapM] *)

Section MapMFacts.
Context {A B : Type}.
Variable f : A -> result B.

Lemma mapM_app (l1 l2 : list A) :
  mapM f (l1 ++ l2) =
  (a <- mapM f l1 ;; b <- mapM f l2 ;; Ok (a ++ b)).
Proof.
  induction l1 as [|x l1 IH]; simpl.
  - destruct (mapM f l2); reflexivity.
  - destruct (f x) as [y|e]; simpl; [|reflexivity].
    rewrite IH. destruct (mapM f l1); simpl; [|reflexivity].
    destruct (mapM f l2); reflexivity.
Qed.

(** The first exception is the one that is thrown. *)
Lemma mapM_first_Err (pre post : list A) (x : A) (done : list B) (e : exn) :
  mapM f pre = Ok done -> f x = Err e -> mapM f (pre ++ x :: post) = Err e.
Proof.
  intros Hpre Hx. rewrite mapM_app, Hpre. simpl. rewrite Hx. reflexivity.
Qed.

Lemma mapM_In_Err (l : list A) (x : A) :
  In x l -> is_Err (f x) -> is_Err (mapM f l).
Proof.
  induction l as [|y l IH]; simpl; [tauto|].
  intros [->|Hin] Hx.
  - destruct (f x); [contradiction|exact I].
  - destruct (f y); simpl; [|exact I].
    specialize (IH Hin Hx). destruct (mapM f l); [contradiction|exact I].
Qed.

Lemma mapM_Forall2 (l : list A) (bs : list B) :
  Forall2 (fun a b => f a = Ok b) l bs -> mapM f l = Ok bs.
Proof.
  induction 1 as [|a b l bs Hab _ IH]; simpl; [reflexivity|].
  rewrite Hab. simpl. rewrite IH. reflexivity.
Qed.

Lemma mapM_Ok_Forall2 (l : list A) (bs : list B) :
  mapM f l = Ok bs -> Forall2 (fun a b => f a = Ok b) l bs.
Proof.
  revert bs. induction l as [|a l IH]; simpl; intros bs H.
  - injection H as <-. constructor.
  - destruct (f a) as [b|] eqn:Ha; simpl in H; [|discriminate].
    destruct (mapM f l) as [bs'|]; simpl in H; [|discriminate].
    injection H as <-. constructor; auto.
Qed.
End MapMFacts.

Lemma mapM_ext {A B : Type} (f g : A -> result B) (l : list A) :
  (forall a, In a l -> f a = g a) -> mapM f l = mapM g l.
Proof.
  induction l as [|a l IH]; simpl; intros H; [reflexivity|].
  rewrite (H a) by (left; reflexivity). rewrite IH; [reflexivity|].
  intros; apply H; right; assumption.
Qed.

(** ** Sizes *)

(** *** Rounding to a double *)

Lemma pow2_53 : 2 ^ 53 = 9007199254740992.
Proof. reflexivity. Qed.

(** An integer below 2^53 in magnitude is a double. *)
Lemma round_double_small (z : Z) :
  - 2 ^ 53 < z < 2 ^ 53 -> round_double z = Fin z.
Proof.
  intros Hz. unfold round_double.
  destruct (Z.ltb_spec (Z.abs z) (2 ^ 53)) as [_|Habs]; [reflexivity|].
  rewrite pow2_53 in *. lia.
Qed.

(** From 2^53 on, the nearest double is at least 2^53, or the positive
    infinity. *)
Lemma round_double_large (z : Z) :
  2 ^ 53 <= z ->
  round_double z = PosInfinity \/
  exists z', round_double z = Fin z' /\ 2 ^ 53 <= z'.
Proof.
  intros Hz.
  assert (H53 : 0 < 2 ^ 53) by (rewrite pow2_53; lia).
  assert (Hlog : 53 <= Z.log2 z).
  { rewrite <- (Z.log2_pow2 53) by lia. apply Z.log2_le_mono. exact Hz. }
  assert (Hulp : 2 <= 2 ^ (Z.log2 z - 52)).
  { change 2 with (2 ^ 1) at 1. apply Z.pow_le_mono_r; lia. }
  assert (Hq : 2 ^ 52 <= z / 2 ^ (Z.log2 z - 52)).
  { apply Z.div_le_lower_bound; [lia|].
    rewrite <- Z.pow_add_r by lia.
    replace (Z.log2 z - 52 + 52) with (Z.log2 z) by lia.
    apply Z.log2_spec. lia. }
  assert (H52 : 2 ^ 52 = 4503599627370496) by reflexivity.
  unfold round_double.
  rewrite (Z.abs_eq z) by lia.
  destruct (Z.ltb_spec z (2 ^ 53)) as [Hlt|_]; [lia|].
  set (ulp := 2 ^ (Z.log2 z - 52)) in *.
  set (q := z / ulp) in *.
  set (q' := if 2 * (z mod ulp) <? ulp then q
             else if ulp <? 2 * (z mod ulp) then q + 1
             else if Z.even q then q else q + 1).
  assert (Hq' : q <= q').
  { unfold q'. destruct (_ <? _); [lia|].
    destruct (_ <? _); [lia|]. destruct (Z.even q); lia. }
  destruct (q' * ulp <? 2 ^ 1024).
  - right. exists (Z.sgn z * (q' * ulp)). split; [reflexivity|].
    rewrite Z.sgn_pos by lia. rewrite pow2_53. nia.
  - left. destruct (Z.ltb_spec 0 z); [reflexivity|lia].
Qed.

(** A double below 2^53 that is the nearest to an integer which is not
    negative is that integer. *)
Lemma round_double_Fin_small (z z' : Z) :
  0 <= z -> round_double z = Fin z' -> z' < 2 ^ 53 -> z = z'.
Proof.
  intros Hz H Hz'.
  destruct (Z.lt_ge_cases z (2 ^ 53)) as [Hlt|Hge].
  - rewrite round_double_small in H by (rewrite pow2_53 in *; lia).
    congruence.
  - destruct (round_double_large z Hge) as [Hinf|(w & Hw & Hle)].
    + congruence.
    + rewrite Hw in H. injection H as <-. lia.
Qed.

(** No finite size is negative: the predicate holds of every number
    except the negative integers. *)
Lemma notNegative_round_double (z : Z) : 0 <= z -> notNegative (round_double z).
Proof.
  intros Hz. destruct (Z.lt_ge_cases z (2 ^ 53)) as [Hlt|Hge].
  - rewrite round_double_small by (rewrite pow2_53 in *; lia). exact Hz.
  - destruct (round_double_large z Hge) as [->|(w & -> & Hle)]; [exact I|].
    simpl. rewrite pow2_53 in Hle. lia.
Qed.

Lemma notNegative_num_add (a b : number) :
  notNegative a -> notNegative b -> notNegative (num_add a b).
Proof.
  destruct a, b; simpl; try tauto.
  intros Ha Hb. apply notNegative_round_double. lia.
Qed.

Lemma notNegative_num_mul (a : number) (n : N) :
  notNegative a -> notNegative (num_mul a n).
Proof.
  destruct a; simpl; try (destruct (N.eqb n 0); tauto); try tauto.
  intros Ha. apply notNegative_round_double. lia.
Qed.

Lemma notNegative_num_max (a b : number) :
  notNegative a -> notNegative b -> notNegative (num_max a b).
Proof. destruct a, b; simpl; try tauto. lia. Qed.

Lemma notNegative_fold (op : number -> number -> number) (l : list number)
    (a : number) :
  (forall x y, notNegative x -> notNegative y -> notNegative (op x y)) ->
  notNegative a -> Forall notNegative l -> notNegative (fold_left op l a).
Proof.
  intros Hop Ha Hl. revert a Ha.
  induction Hl as [|x l Hx _ IH]; intros a Ha; simpl; [exact Ha|].
  apply IH, Hop; assumption.
Qed.







(** *** Sums *)

(** A sum below 2^53 of sizes that are not negative is exact. *)
Lemma fold_left_num_add_Fin (sizes : list Z) (a : Z) :
  0 <= a -> Forall (fun s => 0 <= s) sizes -> a + sum_sizes sizes < 2 ^ 53 ->
  fold_left num_add (map Fin sizes) (Fin a) = Fin (a + sum_sizes sizes).
Proof.
  intros Ha Hsizes. revert a Ha.
  induction Hsizes as [|s sizes Hs Hsizes IH]; intros a Ha Hsum; simpl in *.
  - f_equal. lia.
  - assert (Hrest : 0 <= sum_sizes sizes).
    { clear - Hsizes. induction Hsizes; simpl; lia. }
    rewrite round_double_small by (rewrite pow2_53 in *; lia).
    rewrite IH by lia. f_equal. lia.
Qed.

Lemma sum_sizes_nonneg (sizes : list Z) :
  Forall (fun s => 0 <= s) sizes -> 0 <= sum_sizes sizes.
Proof. induction 1; simpl; lia. Qed.

Lemma reduce_add_from0_Fin (sizes : list Z) :
  Forall (fun s => 0 <= s) sizes -> sum_sizes sizes < 2 ^ 53 ->
  reduce_add_from0 (map Fin sizes) = Fin (sum_sizes sizes).
Proof.
  intros Hsizes Hsum. unfold reduce_add_from0.
  apply (fold_left_num_add_Fin sizes 0); [lia|exact Hsizes|exact Hsum].
Qed.

Lemma reduce_add_Fin (s : Z) (sizes : list Z) :
  Forall (fun x => 0 <= x) (s :: sizes) -> sum_sizes (s :: sizes) < 2 ^ 53 ->
  reduce_add (map Fin (s :: sizes)) = Ok (Fin (sum_sizes (s :: sizes))).
Proof.
  intros Hall Hsum. inversion Hall; subst. simpl in *.
  rewrite fold_left_num_add_Fin by assumption. reflexivity.
Qed.

(** Once a sum is not finite it stays so. *)
Lemma fold_left_num_add_not_Fin (l : list number) (a : number) :
  (forall z, a <> Fin z) -> forall z, fold_left num_add l a <> Fin z.
Proof.
  revert a. induction l as [|x l IH]; intros a Ha; simpl; [exact Ha|].
  apply IH. intros z. destruct a, x; simpl; try discriminate.
  exfalso. apply (Ha z0). reflexivity.
Qed.

(** Once a sum of sizes that are not negative has reached 2^53 it does not
    come back below. *)
Lemma fold_left_num_add_large (l : list number) (a s : Z) :
  2 ^ 53 <= a -> Forall notNegative l ->
  fold_left num_add l (Fin a) = Fin s -> 2 ^ 53 <= s.
Proof.
  intros Ha Hl. revert a Ha.
  induction Hl as [|x l Hx _ IH]; intros a Ha; simpl.
  - intros H. injection H as <-. exact Ha.
  - destruct x as [z| | |]; simpl.
    + simpl in Hx.
      destruct (round_double_large (a + z)) as [->|(w & -> & Hw)]; [lia| |].
      * intros H. exfalso.
        apply (fold_left_num_add_not_Fin l PosInfinity) in H; [exact H|].
        discriminate.
      * apply IH. exact Hw.
    + intros H. exfalso.
      apply (fold_left_num_add_not_Fin l PosInfinity) in H; [exact H|].
      discriminate.
    + intros H. exfalso.
      apply (fold_left_num_add_not_Fin l NegInfinity) in H; [exact H|].
      discriminate.
    + intros H. exfalso.
      apply (fold_left_num_add_not_Fin l NaN) in H; [exact H|].
      discriminate.
Qed.

(** A sum below 2^53 of numbers none of which is a negative integer is the
    exact sum of integers. *)
Lemma fold_left_num_add_inv (l : list number) (a s : Z) :
  0 <= a -> Forall notNegative l ->
  fold_left num_add l (Fin a) = Fin s -> s < 2 ^ 53 ->
  exists sizes, l = map Fin sizes /\ Forall (fun x => 0 <= x) sizes /\
                s = a + sum_sizes sizes.
Proof.
  intros Ha Hl. revert a Ha.
  induction Hl as [|x l Hx Hl IH]; intros a Ha H Hs; simpl in H.
  - injection H as <-. exists []. simpl. repeat split; [constructor|lia].
  - destruct x as [z| | |]; simpl in H, Hx;
      try (exfalso; revert H; apply fold_left_num_add_not_Fin; discriminate).
    destruct (Z.lt_ge_cases (a + z) (2 ^ 53)) as [Hlt|Hge].
    + rewrite round_double_small in H by (rewrite pow2_53 in *; lia).
      destruct (IH (a + z) ltac:(lia) H Hs) as (sizes & -> & Hsizes & ->).
      exists (z :: sizes). simpl. repeat split; [constructor; assumption|lia].
    + exfalso.
      destruct (round_double_large (a + z) Hge) as [Hinf|(w & Hw & Hle)];
        rewrite ?Hinf, ?Hw in H.
      * revert H. apply fold_left_num_add_not_Fin. discriminate.
      * apply (fold_left_num_add_large l w s Hle Hl) in H. lia.
Qed.

Lemma mapM_Ok_Forall {A B : Type} (f : A -> result B) (P : B -> Prop)
    (l : list A) (bs : list B) :
  (forall a b, f a = Ok b -> P b) -> mapM f l = Ok bs -> Forall P bs.
Proof.
  intros Hf H. apply mapM_Ok_Forall2 in H.
  induction H as [|a b l bs Hab _ IH]; constructor; eauto.
Qed.

(** *** No size is a negative integer *)

Lemma accountSize_body_notNegative (tsize : IdlType -> result number)
    (typeDef : IdlTypeDef) (n : number) :
  (forall ty s, tsize ty = Ok s -> notNegative s) ->
  accountSize_body tsize typeDef = Ok n -> notNegative n.
Proof.
  intros Ht. unfold accountSize_body.
  destruct (typedef_type typeDef) as [fields|variants].
  - destruct (mapM (fun f => tsize (field_type f)) fields) as [sizes|] eqn:Hs;
      simpl; [|discriminate].
    intros H. injection H as <-.
    apply (notNegative_fold _ _ _ notNegative_num_add); [simpl; lia|].
    apply (mapM_Ok_Forall _ _ _ _ (fun a b => Ht _ b) Hs).
  - destruct (mapM (variantSize tsize) variants) as [sizes|] eqn:Hs;
      simpl; [|discriminate].
    intros H. injection H as <-.
    apply notNegative_num_add; [|simpl; lia].
    apply (notNegative_fold _ _ _ notNegative_num_max); [exact I|].
    apply (mapM_Ok_Forall (variantSize tsize) notNegative variants sizes);
      [|exact Hs].
    intros v s. unfold variantSize.
    destruct (variant_fields v) as [fields|].
    + destruct (mapM (enumFieldSize tsize) fields) as [fs|] eqn:Hfs;
        simpl; [|discriminate].
      assert (Hfsn : Forall notNegative fs).
      { apply (mapM_Ok_Forall (enumFieldSize tsize) notNegative fields fs);
          [|exact Hfs].
        intros [fld|t] b; simpl; [apply Ht|discriminate]. }
      destruct fs as [|x fs]; simpl; [discriminate|].
      intros H. injection H as <-.
      inversion Hfsn; subst.
      apply (notNegative_fold _ _ _ notNegative_num_add); assumption.
    + intros H. injection H as <-. simpl. lia.
Qed.

Lemma typeSize_notNegative (idl : Idl) (fuel : nat) :
  forall ty n, typeSize fuel idl ty = Ok n -> notNegative n.
Proof.
  induction fuel as [|fuel IH]; intros ty n H; [discriminate|].
  destruct ty as [| | | | | | | | | | | | | |defined|inner|inner|inner size];
    try (injection H as <-; simpl; lia).
  - cbn [typeSize] in H.
    destruct (match idl_types idl with
              | Some types => filterByName defined types
              | None => []
              end) as [|typeDef [|? ?]]; try discriminate.
    apply (accountSize_body_notNegative _ _ _ IH H).
  - change (typeSize (S fuel) idl (Option inner))
      with (s <- typeSize fuel idl inner ;; Ok (num_add (Fin 1) s)) in H.
    destruct (typeSize fuel idl inner) as [s|] eqn:Hs; [|discriminate].
    unfold bind in H.
    assert (Hn : n = num_add (Fin 1) s) by congruence. rewrite Hn.
    apply notNegative_num_add; [simpl; lia|]. apply (IH _ _ Hs).
  - change (typeSize (S fuel) idl (Array inner size))
      with (s <- typeSize fuel idl inner ;; Ok (num_mul s size)) in H.
    destruct (typeSize fuel idl inner) as [s|] eqn:Hs; [|discriminate].
    unfold bind in H.
    assert (Hn : n = num_mul s size) by congruence. rewrite Hn.
    apply notNegative_num_mul. apply (IH _ _ Hs).
Qed.

Lemma typeSize_Fin_nonneg (idl : Idl) (fuel : nat) (ty : IdlType) (s : Z) :
  typeSize fuel idl ty = Ok (Fin s) -> 0 <= s.
Proof. intros H. exact (typeSize_notNegative idl fuel ty (Fin s) H). Qed.

(** The size of a struct is the sum of the sizes of its fields, when that
    is below 2^53. *)
Lemma accountSize_struct (fuel : nat) (idl : Idl) (name : string)
    (fields : list IdlField) (sizes : list Z) :
  Forall2 (fun f s => typeSize fuel idl (field_type f) = Ok (Fin s)) fields sizes ->
  sum_sizes sizes < 2 ^ 53 ->
  accountSize fuel idl (mkIdlTypeDef name (IdlTypeDefTyStruct fields))
  = Ok (Fin (sum_sizes sizes)).
Proof.
  intros H Hsum.
  assert (Hnn : Forall (fun s => 0 <= s) sizes).
  { clear Hsum. induction H as [|f s fields sizes Hf _ IH]; constructor;
      [|exact IH].
    apply (typeSize_Fin_nonneg idl fuel _ _ Hf). }
  assert (Hm : mapM (fun f => typeSize fuel idl (field_type f)) fields
               = Ok (map Fin sizes)).
  { apply mapM_Forall2. clear Hsum Hnn.
    induction H; simpl; constructor; auto. }
  unfold accountSize, accountSize_body.
  cbn [typedef_type]. rewrite Hm. unfold bind.
  rewrite (reduce_add_from0_Fin sizes Hnn Hsum). reflexivity.
Qed.

(** C6: [typeSize] returns the fixed widths of the primitive types and the
    one-byte placeholder for [Bytes], [String] and [Vec]; for [Option] it
    returns one more than the inner size and for [Array] the inner size
    times the length; [accountSize] of a struct is the sum of the sizes of
    its fields in declared order, 0 for the empty struct and 4 + 1 = 5 for
    a struct of one [U32] and one [String] field.  The sums and the
    product are those of JavaScript numbers: they are the exact ones when
    these are below 2^53. *)
Theorem typeSize_widths_and_struct_sum (fuel : nat) (idl : Idl) :
  (typeSize (S fuel) idl Bool = Ok (Fin 1) /\
   typeSize (S fuel) idl U8 = Ok (Fin 1) /\
   typeSize (S fuel) idl I8 = Ok (Fin 1) /\
   typeSize (S fuel) idl U16 = Ok (Fin 2) /\
   typeSize (S fuel) idl I16 = Ok (Fin 2) /\
   typeSize (S fuel) idl U32 = Ok (Fin 4) /\
   typeSize (S fuel) idl I32 = Ok (Fin 4) /\
   typeSize (S fuel) idl U64 = Ok (Fin 8) /\
   typeSize (S fuel) idl I64 = Ok (Fin 8) /\
   typeSize (S fuel) idl U128 = Ok (Fin 16) /\
   typeSize (S fuel) idl I128 = Ok (Fin 16) /\
   typeSize (S fuel) idl PublicKey = Ok (Fin 32)) /\
  (typeSize (S fuel) idl Bytes = Ok (Fin 1) /\
   typeSize (S fuel) idl String = Ok (Fin 1) /\
   forall inner, typeSize (S fuel) idl (Vec inner) = Ok (Fin 1)) /\
  (forall inner s,
      typeSize fuel idl inner = Ok s ->
      typeSize (S fuel) idl (Option inner) = Ok (num_add (Fin 1) s)) /\
  (forall inner s,
      typeSize fuel idl inner = Ok (Fin s) ->
      1 + s < 2 ^ 53 ->
      typeSize (S fuel) idl (Option inner) = Ok (Fin (1 + s))) /\
  (forall inner n s,
      typeSize fuel idl inner = Ok s ->
      typeSize (S fuel) idl (Array inner n) = Ok (num_mul s n)) /\
  (forall inner n s,
      typeSize fuel idl inner = Ok (Fin s) ->
      s * Z.of_N n < 2 ^ 53 ->
      typeSize (S fuel) idl (Array inner n) = Ok (Fin (s * Z.of_N n))) /\
  (forall name fields sizes,
      Forall2 (fun f s => typeSize fuel idl (field_type f) = Ok s)
              fields sizes ->
      accountSize fuel idl (mkIdlTypeDef name (IdlTypeDefTyStruct fields))
      = Ok (fold_left num_add sizes (Fin 0))) /\
  (forall name fields sizes,
      Forall2 (fun f s => typeSize fuel idl (field_type f) = Ok (Fin s))
              fields sizes ->
      sum_sizes sizes < 2 ^ 53 ->
      accountSize fuel idl (mkIdlTypeDef name (IdlTypeDefTyStruct fields))
      = Ok (Fin (sum_sizes sizes))) /\
  (forall name,
      accountSize fuel idl (mkIdlTypeDef name (IdlTypeDefTyStruct [])) = Ok (Fin 0)) /\
  (forall name a b,
      accountSize (S fuel) idl
        (mkIdlTypeDef name
           (IdlTypeDefTyStruct [mkIdlField a U32; mkIdlField b String]))
      = Ok (Fin 5)).
Proof.
  repeat split; try reflexivity.
  - intros inner s H. simpl. rewrite H. reflexivity.
  - intros inner s H Hs.
    change (typeSize (S fuel) idl (Option inner))
      with (x <- typeSize fuel idl inner ;; Ok (num_add (Fin 1) x)).
    rewrite H. unfold bind, num_add.
    pose proof (typeSize_Fin_nonneg _ _ _ _ H) as Hnn.
    rewrite round_double_small; [reflexivity|].
    rewrite pow2_53 in *. lia.
  - intros inner n s H. simpl. rewrite H. reflexivity.
  - intros inner n s H Hs.
    change (typeSize (S fuel) idl (Array inner n))
      with (x <- typeSize fuel idl inner ;; Ok (num_mul x n)).
    rewrite H. unfold bind, num_mul.
    pose proof (typeSize_Fin_nonneg _ _ _ _ H) as Hnn.
    rewrite round_double_small; [reflexivity|].
    rewrite pow2_53 in *. nia.
  - intros name fields sizes H. unfold accountSize, accountSize_body. simpl.
    rewrite (mapM_Forall2 _ fields sizes H). reflexivity.
  - intros name fields sizes H Hsum. apply accountSize_struct; assumption.
Qed.

(** A use of C6 on concrete types: an optional [U64], an array of three
    [U16] and a struct of the two. *)
Lemma typeSize_widths_and_struct_sum_witness :
  let idl := mkIdl "0.0.0" "demo" None None in
  typeSize 2 idl (Option U64) = Ok (Fin 9) /\
  typeSize 2 idl (Array U16 3) = Ok (Fin 6) /\
  accountSize 2 idl
    (mkIdlTypeDef "Pair"
       (IdlTypeDefTyStruct
          [mkIdlField "a" (Option U64); mkIdlField "b" (Array U16 3)]))
  = Ok (Fin 15).
Proof.
  intro idl.
  destruct (typeSize_widths_and_struct_sum 1 idl)
    as (_ & _ & _ & Hopt & _ & Harr & _).
  destruct (typeSize_widths_and_struct_sum 2 idl)
    as (_ & _ & _ & _ & _ & _ & _ & Hstruct & _).
  split; [|split].
  - apply (Hopt U64 8); [reflexivity|vm_compute; reflexivity].
  - apply (Harr U16 3%N 2); [reflexivity|vm_compute; reflexivity].
  - apply (Hstruct "Pair" _ [9; 6]); [|vm_compute; reflexivity].
    repeat constructor.
Defined.

Lemma is_Err_bind {A B : Type} (r : result A) (k : A -> result B) :
  is_Err r -> is_Err (bind r k).
Proof. destruct r; simpl; [contradiction|trivial]. Qed.

Lemma fold_right_max_start (l : list Z) (a x : Z) :
  fold_right Z.max (Z.max a x) l = Z.max x (fold_right Z.max a l).
Proof.
  induction l as [|y l IH]; simpl; [lia|]. rewrite IH. lia.
Qed.

Lemma Math_max_Fin (s : Z) (sizes : list Z) :
  Math_max (map Fin (s :: sizes)) = Fin (max_sizes s sizes).
Proof.
  unfold Math_max, max_sizes. simpl.
  revert s. induction sizes as [|x l IH]; intros a; simpl; [reflexivity|].
  rewrite IH. f_equal. apply fold_right_max_start.
Qed.

Lemma variantSize_contribution (tsize : IdlType -> result number)
    (v : IdlEnumVariant) (s : Z) :
  VariantContribution tsize v s -> variantSize tsize v = Ok (Fin s).
Proof.
  intros [name|name f fields sizes H Hnn Hsum]; [reflexivity|].
  assert (Hm : mapM (enumFieldSize tsize) (map NamedField (f :: fields))
               = Ok (map Fin sizes)).
  { apply mapM_Forall2. clear - H.
    induction H; simpl; constructor; auto. }
  unfold variantSize. cbn [variant_fields]. rewrite Hm. unfold bind.
  inversion H; subst. apply reduce_add_Fin; assumption.
Qed.

(** For an enum whose variants either have no [fields] property or have a
    non-empty list of named fields, the size is one more than the largest
    sum of field sizes. *)
Lemma accountSize_enum_max_rule (fuel : nat) (idl : Idl) (name : string)
    (v : IdlEnumVariant) (variants : list IdlEnumVariant)
    (s : Z) (sizes : list Z) :
  Forall2 (VariantContribution (typeSize fuel idl)) (v :: variants) (s :: sizes) ->
  1 + max_sizes s sizes < 2 ^ 53 ->
  accountSize fuel idl (mkIdlTypeDef name (IdlTypeDefTyEnum (v :: variants)))
  = Ok (Fin (1 + max_sizes s sizes)).
Proof.
  intros H Hmax.
  assert (Hm : mapM (variantSize (typeSize fuel idl)) (v :: variants)
               = Ok (map Fin (s :: sizes))).
  { apply mapM_Forall2. clear - H.
    remember (v :: variants) as vs. remember (s :: sizes) as ss.
    clear Heqvs Heqss. induction H; simpl; constructor; auto.
    apply variantSize_contribution; assumption. }
  assert (Hpos : 0 <= max_sizes s sizes).
  { assert (Hs : 0 <= s).
    { inversion H as [|? ? ? ? Hv _]; subst.
      inversion Hv as [|? ? ? ? _ Hnn _]; subst; [lia|].
      apply sum_sizes_nonneg; assumption. }
    unfold max_sizes. clear - Hs. induction sizes as [|x l IH]; simpl; lia. }
  unfold accountSize, accountSize_body. cbn [typedef_type].
  rewrite Hm. unfold bind. rewrite Math_max_Fin. unfold num_add.
  rewrite round_double_small; [f_equal; f_equal; lia|].
  rewrite pow2_53 in *. lia.
Qed.

(** C5: the example of the claim holds, an enum whose variants carry one
    [U8] and one [U64] field has size 1 + 8 = 9; but a variant whose
    [fields] array is empty does not contribute 0: the estimator throws,
    where the same variant without a [fields] property gives size 1. *)
Theorem accountSize_enum_empty_fields_array :
  let idl := mkIdl "0.0.0" "demo" None None in
  accountSize 1 idl
    (mkIdlTypeDef "E"
       (IdlTypeDefTyEnum
          [mkIdlEnumVariant "A" (Some [NamedField (mkIdlField "x" U8)]);
           mkIdlEnumVariant "B" (Some [NamedField (mkIdlField "y" U64)])]))
  = Ok (Fin 9) /\
  accountSize 1 idl
    (mkIdlTypeDef "E" (IdlTypeDefTyEnum [mkIdlEnumVariant "A" None]))
  = Ok (Fin 1) /\
  accountSize 1 idl
    (mkIdlTypeDef "E" (IdlTypeDefTyEnum [mkIdlEnumVariant "A" (Some [])]))
  = Err TypeError_ReduceEmpty.
Proof. repeat split. Qed.

(** C10: an enum with a variant whose [fields] array is present and empty
    makes [accountSize] throw, whatever the other variants are; when the
    variants before it have a size the exception is the one of [reduce] on
    an empty array.  A variant without a [fields] property contributes
    0. *)
Theorem accountSize_present_empty_fields_throws (fuel : nat) (idl : Idl)
    (name : string) (pre post : list IdlEnumVariant) (v : IdlEnumVariant) :
  variant_fields v = Some [] ->
  let typeDef := mkIdlTypeDef name (IdlTypeDefTyEnum (pre ++ v :: post)) in
  is_Err (accountSize fuel idl typeDef) /\
  (forall sizes,
      mapM (variantSize (typeSize fuel idl)) pre = Ok sizes ->
      accountSize fuel idl typeDef = Err TypeError_ReduceEmpty) /\
  (forall vname, variantSize (typeSize fuel idl) (mkIdlEnumVariant vname None)
                 = Ok (Fin 0)).
Proof.
  intros Hv typeDef.
  assert (Hthrow : variantSize (typeSize fuel idl) v = Err TypeError_ReduceEmpty).
  { unfold variantSize. rewrite Hv. reflexivity. }
  split; [|split].
  - unfold accountSize, accountSize_body. cbn [typeDef typedef_type].
    apply is_Err_bind. apply (mapM_In_Err _ _ v).
    + apply in_or_app. right. left. reflexivity.
    + rewrite Hthrow. exact I.
  - intros sizes Hpre. unfold accountSize, accountSize_body.
    cbn [typeDef typedef_type].
    rewrite (mapM_first_Err _ pre post v sizes _ Hpre Hthrow). reflexivity.
  - reflexivity.
Qed.

(** A use of C10: the empty variant comes second, after a variant of one
    [U8] field. *)
Lemma accountSize_present_empty_fields_throws_witness :
  let idl := mkIdl "0.0.0" "demo" None None in
  let typeDef :=
    mkIdlTypeDef "E"
      (IdlTypeDefTyEnum
         ([mkIdlEnumVariant "A" (Some [NamedField (mkIdlField "x" U8)])]
          ++ mkIdlEnumVariant "B" (Some []) :: [mkIdlEnumVariant "C" None])) in
  is_Err (accountSize 1 idl typeDef) /\
  accountSize 1 idl typeDef = Err TypeError_ReduceEmpty.
Proof.
  intros idl typeDef.
  destruct (accountSize_present_empty_fields_throws 1 idl "E"
              [mkIdlEnumVariant "A" (Some [NamedField (mkIdlField "x" U8)])]
              [mkIdlEnumVariant "C" None]
              (mkIdlEnumVariant "B" (Some [])) eq_refl) as (H1 & H2 & _).
  split; [exact H1|].
  apply (H2 [Fin 1]). reflexivity.
Defined.

(** ** Unresolved references and tuple variants *)

(** C7: a [Defined] reference whose name matches no type definition, or
    more than one, makes the layout compiler and the size estimator throw
    the "Type not found" [IdlError]; the estimator does so as well when
    the IDL has no [types] at all. *)
Theorem defined_reference_not_found (camelCase : string -> string)
    (fuel : nat) (idl : Idl) (types : list IdlTypeDef) (name : string)
    (fieldName : option string) :
  List.length (filterByName name types) <> 1%nat ->
  fieldLayout camelCase (S fuel) fieldName (Defined name) (Some types)
  = Err (IdlError_TypeNotFound name) /\
  (idl_types idl = Some types ->
   typeSize (S fuel) idl (Defined name) = Err (IdlError_TypeNotFound name)) /\
  (idl_types idl = None ->
   typeSize (S fuel) idl (Defined name) = Err (IdlError_TypeNotFound name)).
Proof.
  intros Hlen. split; [|split].
  - simpl. destruct (filterByName name types) as [|t [|t' l]];
      try reflexivity. simpl in Hlen. congruence.
  - intros Htypes. simpl. rewrite Htypes.
    destruct (filterByName name types) as [|t [|t' l]];
      try reflexivity. simpl in Hlen. congruence.
  - intros Htypes. simpl. rewrite Htypes. reflexivity.
Qed.

(** A use of C7: [Defined("Ghost")] against a schema that has no "Ghost",
    and [Defined("Twin")] against one that has two. *)
Lemma defined_reference_not_found_witness :
  let unit := mkIdlTypeDef "Unit" (IdlTypeDefTyStruct []) in
  let twin := mkIdlTypeDef "Twin" (IdlTypeDefTyStruct []) in
  let idl := mkIdl "0.0.0" "demo" None (Some [unit; twin; twin]) in
  fieldLayout (fun s => s) 1 (Some "g") (Defined "Ghost") (Some [unit; twin; twin])
  = Err (IdlError_TypeNotFound "Ghost") /\
  typeSize 1 idl (Defined "Ghost") = Err (IdlError_TypeNotFound "Ghost") /\
  fieldLayout (fun s => s) 1 (Some "t") (Defined "Twin") (Some [unit; twin; twin])
  = Err (IdlError_TypeNotFound "Twin") /\
  typeSize 1 idl (Defined "Twin") = Err (IdlError_TypeNotFound "Twin").
Proof.
  intros unit twin idl.
  assert (Hghost : List.length (filterByName "Ghost" [unit; twin; twin]) <> 1%nat)
    by (vm_compute; lia).
  assert (Htwin : List.length (filterByName "Twin" [unit; twin; twin]) <> 1%nat)
    by (vm_compute; lia).
  destruct (defined_reference_not_found (fun s => s) 0 idl _ "Ghost" (Some "g") Hghost)
    as (G1 & G2 & _).
  destruct (defined_reference_not_found (fun s => s) 0 idl _ "Twin" (Some "t") Htwin)
    as (T1 & T2 & _).
  split; [exact G1 | split; [exact (G2 eq_refl) | split; [exact T1 | exact (T2 eq_refl)]]].
Defined.

(** C8: an enum with a variant that has a tuple field gives neither a
    layout nor a size: [typeDefLayout] and [accountSize] throw.  When what
    precedes the tuple field is compiled (or sized) without an exception,
    the exception is "Tuple enum variants not yet implemented.". *)
Theorem tuple_enum_variant_rejected (camelCase : string -> string)
    (fuel : nat) (idl : Idl) (types : option (list IdlTypeDef))
    (name : string) (layoutName : option string)
    (pre post : list IdlEnumVariant) (v : IdlEnumVariant)
    (fpre fpost : list IdlEnumField) (ty : IdlType) :
  variant_fields v = Some (fpre ++ TupleField ty :: fpost) ->
  let typeDef := mkIdlTypeDef name (IdlTypeDefTyEnum (pre ++ v :: post)) in
  let flayout := fun n t =>
    fieldLayout camelCase fuel n t
      (Some match types with Some tys => tys | None => [] end) in
  (is_Err (typeDefLayout camelCase fuel typeDef types layoutName) /\
   is_Err (accountSize fuel idl typeDef)) /\
  (forall ls fls,
      mapM (variantLayout camelCase flayout) pre = Ok ls ->
      mapM (enumFieldLayout flayout) fpre = Ok fls ->
      typeDefLayout camelCase fuel typeDef types layoutName
      = Err Error_TupleEnumVariants) /\
  (forall sizes fsizes,
      mapM (variantSize (typeSize fuel idl)) pre = Ok sizes ->
      mapM (enumFieldSize (typeSize fuel idl)) fpre = Ok fsizes ->
      accountSize fuel idl typeDef = Err Error_TupleEnumVariants).
Proof.
  intros Hv typeDef flayout.
  assert (Hin : In v (pre ++ v :: post))
    by (apply in_or_app; right; left; reflexivity).
  assert (Hinf : In (TupleField ty) (fpre ++ TupleField ty :: fpost))
    by (apply in_or_app; right; left; reflexivity).
  split; [split|split].
  - unfold typeDefLayout, typeDefLayout_body. cbn [typeDef typedef_type].
    apply is_Err_bind. apply (mapM_In_Err _ _ v Hin).
    unfold variantLayout. rewrite Hv. apply is_Err_bind.
    apply (mapM_In_Err _ _ (TupleField ty) Hinf). exact I.
  - unfold accountSize, accountSize_body. cbn [typeDef typedef_type].
    apply is_Err_bind. apply (mapM_In_Err _ _ v Hin).
    unfold variantSize. rewrite Hv. apply is_Err_bind.
    apply (mapM_In_Err _ _ (TupleField ty) Hinf). exact I.
  - intros ls fls Hpre Hfpre.
    unfold typeDefLayout, typeDefLayout_body. cbn [typeDef typedef_type].
    fold flayout.
    rewrite (mapM_first_Err _ pre post v ls Error_TupleEnumVariants Hpre);
      [reflexivity|].
    unfold variantLayout. rewrite Hv.
    rewrite (mapM_first_Err _ fpre fpost _ fls Error_TupleEnumVariants Hfpre);
      reflexivity.
  - intros sizes fsizes Hpre Hfpre.
    unfold accountSize, accountSize_body. cbn [typeDef typedef_type].
    rewrite (mapM_first_Err _ pre post v sizes Error_TupleEnumVariants Hpre);
      [reflexivity|].
    unfold variantSize. rewrite Hv.
    rewrite (mapM_first_Err _ fpre fpost _ fsizes Error_TupleEnumVariants Hfpre);
      reflexivity.
Qed.

(** A use of C8: the second variant of the enum has a named field and then
    a tuple field. *)
Lemma tuple_enum_variant_rejected_witness :
  let idl := mkIdl "0.0.0" "demo" None None in
  let typeDef :=
    mkIdlTypeDef "E"
      (IdlTypeDefTyEnum
         ([mkIdlEnumVariant "A" None]
          ++ mkIdlEnumVariant "B"
               (Some ([NamedField (mkIdlField "x" U8)]
                      ++ TupleField U16 :: [NamedField (mkIdlField "y" Bool)]))
          :: [mkIdlEnumVariant "C" None])) in
  typeDefLayout (fun s => s) 1 typeDef None None = Err Error_TupleEnumVariants /\
  accountSize 1 idl typeDef = Err Error_TupleEnumVariants.
Proof.
  intros idl typeDef.
  destruct (tuple_enum_variant_rejected (fun s => s) 1 idl None "E" None
              [mkIdlEnumVariant "A" None] [mkIdlEnumVariant "C" None]
              (mkIdlEnumVariant "B"
                 (Some ([NamedField (mkIdlField "x" U8)]
                        ++ TupleField U16 :: [NamedField (mkIdlField "y" Bool)])))
              [NamedField (mkIdlField "x" U8)] [NamedField (mkIdlField "y" Bool)]
              U16 eq_refl) as (_ & HL & HS).
  split.
  - apply (HL [borsh_struct [] (Some "A")] [borsh_u8 (Some "x")]); reflexivity.
  - apply (HS [Fin 0] [Fin 1]); reflexivity.
Defined.

(** ** Composite field types *)

(** C2: for [Vec] the compiler reads the element type under the key [vec],
    which a [Vec] type does not have (it is stored under [Vec]); the
    recursive call is made on [undefined] and throws, so no layout is
    returned for any [Vec] type, at any depth of the call stack. *)
Theorem fieldLayout_Vec_throws (camelCase : string -> string) (fuel : nat)
    (name : option string) (inner : IdlType)
    (types : option (list IdlTypeDef)) :
  getProp (Vec inner) "Vec" = Some inner /\
  getProp (Vec inner) "vec" = None /\
  fieldLayout camelCase (S fuel) name (Vec inner) types
  = Err TypeError_InUndefined /\
  is_Err (fieldLayout camelCase fuel name (Vec inner) types).
Proof.
  repeat split. destruct fuel; exact I.
Qed.

(** [Option(inner)] compiles to the option layout of the compiled inner
    type. *)
Lemma fieldLayout_Option (camelCase : string -> string) (fuel : nat)
    (name : option string) (inner : IdlType)
    (types : option (list IdlTypeDef)) (l : Layout) :
  fieldLayout camelCase fuel None inner types = Ok l ->
  fieldLayout camelCase (S fuel) name (Option inner) types
  = Ok (borsh_option l (option_map camelCase name)).
Proof. intros H. simpl. rewrite H. reflexivity. Qed.

(** [Array(inner, n)] compiles to the fixed-length sequence of the compiled
    inner type. *)
Lemma fieldLayout_Array (camelCase : string -> string) (fuel : nat)
    (name : option string) (inner : IdlType) (n : N)
    (types : option (list IdlTypeDef)) (l : Layout) :
  fieldLayout camelCase fuel None inner types = Ok l ->
  fieldLayout camelCase (S fuel) name (Array inner n) types
  = Ok (borsh_array l n (option_map camelCase name)).
Proof. intros H. simpl. rewrite H. reflexivity. Qed.

(** The option layout writes the flag 0 alone for [null], and the flag 1
    followed by the inner layout otherwise. *)
Lemma encode_option (l : Layout) (p : option string) :
  encode (borsh_option l p) VNull = Ok [x00] /\
  forall v bs, v <> VNull -> encode l v = Ok bs ->
               encode (borsh_option l p) v = Ok (x01 :: bs).
Proof.
  split; [reflexivity|].
  intros v bs Hv H. simpl. rewrite H. destruct v; try reflexivity. congruence.
Qed.

(** The array layout writes its elements one after the other and nothing
    else. *)
Lemma encode_array (l : Layout) (n : N) (p : option string)
    (items : list Value) (chunks : list (list byte)) :
  N.of_nat (List.length items) = n ->
  Forall2 (fun v bs => encode l v = Ok bs) items chunks ->
  encode (borsh_array l n p) (VArray items) = Ok (List.concat chunks).
Proof.
  intros Hn H. simpl. rewrite Hn, N.eqb_refl.
  rewrite (mapM_Forall2 _ _ _ H). reflexivity.
Qed.

(** C1: no layout is returned for [Vec(U8)], so a value of that type is
    neither encoded nor decoded; the layout that the claim describes, the
    length-prefixed sequence of [u8], does give the value back. *)
Theorem roundtrip_Vec_U8_throws (camelCase : string -> string) (fuel : nat)
    (name : option string) (types : option (list IdlTypeDef)) :
  let v := VArray [VNumber 1; VNumber 2] in
  (l <- fieldLayout camelCase (S fuel) name (Vec U8) types ;;
   bs <- encode l v ;;
   decode l bs) = Err TypeError_InUndefined /\
  (let l := borsh_vec (borsh_u8 None) (option_map camelCase name) in
   bs <- encode l v ;; decode l bs) = Ok (v, []).
Proof. split; reflexivity. Qed.

(** ** Discriminators *)

Lemma length_be_bytes (n : nat) (x : N) :
  List.length (SHA256.be_bytes n x) = n.
Proof.
  revert x. induction n as [|n IH]; intros x; simpl; [reflexivity|].
  rewrite length_app, IH. simpl. lia.
Qed.

Lemma length_digest (msg : list byte) : List.length (SHA256.digest msg) = 32%nat.
Proof.
  unfold SHA256.digest, SHA256.word_bytes.
  repeat rewrite length_app. repeat rewrite length_map.
  repeat rewrite length_be_bytes. reflexivity.
Qed.

(** The digest of the three-byte message of FIPS 180-4, and of the empty
    message. *)
Example digest_abc :
  SHA256.digest (list_byte_of_string "abc")
  = [xba; x78; x16; xbf; x8f; x01; xcf; xea; x41; x41; x40; xde; x5d; xae;
     x22; x23; xb0; x03; x61; xa3; x96; x17; x7a; x9c; xb4; x10; xff; x61;
     xf2; x00; x15; xad].
Proof. vm_compute. reflexivity. Qed.

Example digest_empty :
  SHA256.digest []
  = [xe3; xb0; xc4; x42; x98; xfc; x1c; x14; x9a; xfb; xf4; xc8; x99; x6f;
     xb9; x24; x27; xae; x41; xe4; x64; x9b; x93; x4c; xa4; x95; x99; x1b;
     x78; x52; xb8; x55].
Proof. vm_compute. reflexivity. Qed.

(** Names in camel case are split at the capitals; a name in lower case is
    its own snake form. *)
Example snakeCase_examples :
  SnakeCase.snakeCase "initializeAccount" = "initialize_account" /\
  SnakeCase.snakeCase "XMLHttpRequest" = "xml_http_request" /\
  SnakeCase.snakeCase "initialize" = "initialize" /\
  SnakeCase.snakeCase "close" = "close".
Proof. repeat split. Qed.

(** The discriminator of Anchor's [initialize] in the [global] name
    space. *)
Example sighash_global_initialize :
  sighash "global" "initialize" = [xaf; xaf; x6d; x1f; x0d; x98; x9b; xed].
Proof. vm_compute. reflexivity. Qed.

(** C4: [sighash] is the first eight bytes of the SHA-256 digest of the
    name space, a colon and the name in snake case; it is a function of
    its two arguments, eight bytes long, with the values below for the two
    names of the spec, which differ. *)
Theorem sighash_is_digest_prefix :
  (forall nameSpace ixName,
      sighash nameSpace ixName
      = firstn 8 (SHA256.digest
                    (list_byte_of_string
                       (nameSpace ++ ":" ++ SnakeCase.snakeCase ixName)%string))) /\
  (forall nameSpace ixName, List.length (sighash nameSpace ixName) = 8%nat) /\
  sighash "myapp" "initialize" = [xfa; xc5; x99; x46; x6b; x50; xa9; x46] /\
  sighash "myapp" "close" = [x64; x76; x16; x17; xfb; x73; x02; xb6] /\
  sighash "myapp" "initialize" <> sighash "myapp" "close".
Proof.
  assert (Hi : sighash "myapp" "initialize" = [xfa; xc5; x99; x46; x6b; x50; xa9; x46])
    by (vm_compute; reflexivity).
  assert (Hc : sighash "myapp" "close" = [x64; x76; x16; x17; xfb; x73; x02; xb6])
    by (vm_compute; reflexivity).
  split; [reflexivity|]. split; [|split; [exact Hi|split; [exact Hc|]]].
  - intros nameSpace ixName. unfold sighash.
    rewrite firstn_length_le; [reflexivity|]. rewrite length_digest. lia.
  - rewrite Hi, Hc. discriminate.
Qed.

(** ** Little-endian integers *)

Lemma Z_of_byte_range (b : byte) : 0 <= Z_of_byte b < 256.
Proof.
  unfold Z_of_byte. pose proof (Byte.to_N_bounded b). lia.
Qed.

Lemma Z_of_byte_of_Z (z : Z) : Z_of_byte (byte_of_Z z) = z mod 256.
Proof.
  unfold Z_of_byte, byte_of_Z, SHA256.byte_of.
  assert (Hm : 0 <= z mod 256 < 256) by (apply Z.mod_pos_bound; lia).
  destruct (Byte.of_N (Z.to_N (z mod 256))) as [b|] eqn:Hb.
  - apply Byte.to_of_N in Hb. rewrite Hb. lia.
  - apply Byte.of_N_None_iff in Hb. lia.
Qed.

Lemma byte_of_Z_of_byte (b : byte) : byte_of_Z (Z_of_byte b) = b.
Proof.
  unfold byte_of_Z, SHA256.byte_of.
  rewrite Z.mod_small by apply Z_of_byte_range.
  unfold Z_of_byte. rewrite N2Z.id, Byte.of_to_N. reflexivity.
Qed.

Lemma length_le_bytes (n : nat) (z : Z) : List.length (le_bytes n z) = n.
Proof.
  revert z. induction n as [|n IH]; intros z; simpl; [reflexivity|].
  rewrite IH. reflexivity.
Qed.

Lemma le_value_range (bs : list byte) :
  0 <= le_value bs < 256 ^ Z.of_nat (List.length bs).
Proof.
  induction bs as [|b bs IH]; [simpl; lia|].
  cbn [le_value List.length]. rewrite Nat2Z.inj_succ, Z.pow_succ_r by lia.
  pose proof (Z_of_byte_range b). lia.
Qed.

Lemma le_value_le_bytes (n : nat) (z : Z) :
  0 <= z < 256 ^ Z.of_nat n -> le_value (le_bytes n z) = z.
Proof.
  revert z. induction n as [|n IH]; intros z Hz.
  - simpl in *. lia.
  - cbn [le_bytes le_value]. rewrite Z_of_byte_of_Z.
    rewrite Nat2Z.inj_succ, Z.pow_succ_r in Hz by lia.
    rewrite IH.
    + pose proof (Z.div_mod z 256). lia.
    + split; [apply Z.div_pos; lia|].
      apply Z.div_lt_upper_bound; lia.
Qed.

Lemma le_bytes_le_value (bs : list byte) :
  le_bytes (List.length bs) (le_value bs) = bs.
Proof.
  induction bs as [|b bs IH]; [reflexivity|].
  cbn [List.length le_bytes le_value].
  pose proof (Z_of_byte_range b) as Hb.
  replace (Z_of_byte b + 256 * le_value bs)
    with (Z_of_byte b + le_value bs * 256) by lia.
  rewrite Z.div_add, Z.div_small, Z.add_0_l, IH by lia.
  f_equal. unfold byte_of_Z.
  rewrite Z.mod_add by lia.
  apply byte_of_Z_of_byte.
Qed.

(** ** Reading back what was written *)

Lemma take_app (n : nat) (a b : list byte) :
  List.length a = n -> take n (a ++ b) = Ok (a, b).
Proof.
  intros <-. unfold take. rewrite length_app.
  replace (Nat.ltb _ _) with false
    by (symmetry; apply Nat.ltb_ge; lia).
  rewrite firstn_app, Nat.sub_diag, firstn_all, skipn_app, Nat.sub_diag,
    skipn_all. simpl. rewrite app_nil_r. reflexivity.
Qed.

Lemma decode_blob_encode_blob (data out rest : list byte) :
  encode_blob data = Ok out ->
  decode_blob (out ++ rest) = Ok (data, rest).
Proof.
  unfold encode_blob, decode_blob.
  destruct (Z.ltb_spec (Z.of_nat (List.length data)) (2 ^ 32)) as [Hlen|];
    [|discriminate].
  intros H.
  assert (Hout : out = le_bytes 4 (Z.of_nat (List.length data)) ++ data)
    by (injection H as <-; reflexivity).
  rewrite Hout, <- app_assoc.
  rewrite take_app by apply length_le_bytes. cbn [bind fst snd].
  rewrite le_value_le_bytes by (change (256 ^ Z.of_nat 4) with (2 ^ 32); lia).
  rewrite Nat2Z.id. apply take_app. reflexivity.
Qed.

(** ** The IDL account *)

Lemma encode_IDL_ACCOUNT_LAYOUT (acc : IdlProgramAccount) :
  List.length (authority acc) = 32%nat ->
  (Z.of_nat (List.length (data acc)) < 2 ^ 32) ->
  encode IDL_ACCOUNT_LAYOUT (accountValue acc)
  = Ok (authority acc ++ le_bytes 4 (Z.of_nat (List.length (data acc))) ++ data acc).
Proof.
  intros Hauth Hdata.
  change (encode IDL_ACCOUNT_LAYOUT (accountValue acc))
    with (chunks <-
            (a <- (if Nat.eqb (List.length (authority acc)) 32
                   then Ok (authority acc) else Err TypeError_Value) ;;
             bs <- (d <- encode_blob (data acc) ;; bs <- Ok [] ;; Ok (d :: bs)) ;;
             Ok (a :: bs)) ;;
          Ok (List.concat chunks)).
  rewrite Hauth. unfold encode_blob.
  replace (Z.of_nat (List.length (data acc)) <? 2 ^ 32) with true
    by (symmetry; apply Z.ltb_lt; assumption).
  cbn [Nat.eqb bind List.concat]. rewrite app_nil_r. reflexivity.
Qed.

(** C9, as amended: for an account whose data is at most 964 bytes long,
    [encodeIdlAccount] returns the bytes of the layout, the 32 bytes of the
    authority, the length of the data as a four-byte little-endian integer
    and the data, 36 + data.length bytes in all, and [decodeIdlAccount]
    gives the account back. *)
Theorem encodeIdlAccount_within_buffer (acc : IdlProgramAccount) :
  List.length (authority acc) = 32%nat ->
  (List.length (data acc) <= 964)%nat ->
  let out := authority acc
             ++ le_bytes 4 (Z.of_nat (List.length (data acc))) ++ data acc in
  le_value (le_bytes 4 (Z.of_nat (List.length (data acc))))
  = Z.of_nat (List.length (data acc)) /\
  encode IDL_ACCOUNT_LAYOUT (accountValue acc) = Ok out /\
  encodeIdlAccount acc = Ok out /\
  List.length out = (36 + List.length (data acc))%nat /\
  decodeIdlAccount out = Ok acc.
Proof.
  intros Hauth Hdata out.
  split; [apply le_value_le_bytes; change (256 ^ Z.of_nat 4) with (2 ^ 32);
          split; [lia|apply Z.le_lt_trans with 964; [lia|reflexivity]]|].
  assert (Hlt : Z.of_nat (List.length (data acc)) < 2 ^ 32).
  { apply Z.le_lt_trans with 964; [lia|reflexivity]. }
  assert (Hlen : List.length out = (36 + List.length (data acc))%nat).
  { unfold out. rewrite !length_app, length_le_bytes, Hauth. lia. }
  assert (Henc : encode IDL_ACCOUNT_LAYOUT (accountValue acc) = Ok out)
    by (apply encode_IDL_ACCOUNT_LAYOUT; assumption).
  split; [exact Henc|]. split; [|split; [exact Hlen|]].
  - unfold encodeIdlAccount. rewrite Henc. cbn [bind]. rewrite Hlen.
    replace (Nat.leb _ _) with true by (symmetry; apply Nat.leb_le; lia).
    reflexivity.
  - unfold decodeIdlAccount.
    change (decode IDL_ACCOUNT_LAYOUT out)
      with (r <- (r0 <- take 32 out ;; Ok (VPublicKey (fst r0), snd r0)) ;;
            decodeFields decode [borsh_vecU8 (Some "data")] (snd r)
              (assign "authority" (fst r) [])).
    unfold out. rewrite take_app by assumption. cbn [bind fst snd decodeFields].
    change (decode (borsh_vecU8 (Some "data"))
              (le_bytes 4 (Z.of_nat (List.length (data acc))) ++ data acc))
      with (r <- decode_blob (le_bytes 4 (Z.of_nat (List.length (data acc)))
                              ++ data acc) ;;
            Ok (VBuffer (fst r), snd r)).
    rewrite <- (app_nil_r (_ ++ data acc)).
    rewrite (decode_blob_encode_blob (data acc) _ []).
    + destruct acc; reflexivity.
    + unfold encode_blob.
      replace (Z.of_nat (List.length (data acc)) <? 2 ^ 32) with true
        by (symmetry; apply Z.ltb_lt; assumption).
      reflexivity.
Qed.

(** A use of C9 as amended, on an account with three bytes of data. *)
Lemma encodeIdlAccount_within_buffer_witness :
  let acc := mkIdlProgramAccount (repeat x07 32) [x01; x02; x03] in
  let out := repeat x07 32 ++ [x03; x00; x00; x00] ++ [x01; x02; x03] in
  encodeIdlAccount acc = Ok out /\
  List.length out = 39%nat /\
  decodeIdlAccount out = Ok acc.
Proof.
  intros acc out.
  assert (Hauth : List.length (authority acc) = 32%nat) by reflexivity.
  assert (Hdata : (List.length (data acc) <= 964)%nat) by (simpl; lia).
  destruct (encodeIdlAccount_within_buffer acc Hauth Hdata) as (_ & _ & H1 & H2 & H3).
  split; [exact H1|]. split; [exact H2|exact H3].
Defined.

(** For longer data the write runs past the end of the 1000-byte buffer
    and [encodeIdlAccount] throws. *)
Lemma encodeIdlAccount_overrun (acc : IdlProgramAccount) :
  (964 < List.length (data acc))%nat ->
  is_Err (encodeIdlAccount acc).
Proof.
  intros Hdata. unfold encodeIdlAccount.
  change (encode IDL_ACCOUNT_LAYOUT (accountValue acc))
    with (chunks <-
            (a <- (if Nat.eqb (List.length (authority acc)) 32
                   then Ok (authority acc) else Err TypeError_Value) ;;
             bs <- (d <- encode_blob (data acc) ;; bs <- Ok [] ;; Ok (d :: bs)) ;;
             Ok (a :: bs)) ;;
          Ok (List.concat chunks)).
  destruct (Nat.eqb_spec (List.length (authority acc)) 32) as [Hauth|];
    [|exact I].
  unfold encode_blob.
  destruct (Z.of_nat (List.length (data acc)) <? 2 ^ 32); [|exact I].
  cbn [bind List.concat].
  replace (Nat.leb _ _) with false; [exact I|].
  symmetry. apply Nat.leb_gt.
  rewrite !length_app, length_le_bytes, Hauth. simpl. lia.
Qed.

(** C9 as stated fails: with 965 bytes of data the output would be 1001
    bytes long, and [encodeIdlAccount] throws instead of returning it. *)
Lemma encodeIdlAccount_965_bytes_throws :
  List.length (repeat x00 32) = 32%nat /\
  encodeIdlAccount (mkIdlProgramAccount (repeat x00 32) (repeat x00 965))
  = Err RangeError_Overrun /\
  ~ (exists out,
        encodeIdlAccount (mkIdlProgramAccount (repeat x00 32) (repeat x00 965))
        = Ok out /\ List.length out = (36 + 965)%nat).
Proof.
  assert (H : encodeIdlAccount
                (mkIdlProgramAccount (repeat x00 32) (repeat x00 965))
              = Err RangeError_Overrun) by (vm_compute; reflexivity).
  split; [reflexivity|]. split; [exact H|].
  intros (out & Hout & _). rewrite H in Hout. discriminate.
Qed.

(** ** Enums *)

Section EnumLayout.
Variable camelCase : string -> string.
Variable flayout : option string -> IdlType -> result Layout.

(** The layout of a variant is the struct of its field layouts, named
    after the variant; without a [fields] property it has no field. *)
Lemma variantLayout_struct (v : IdlEnumVariant) (l : Layout) :
  variantLayout camelCase flayout v = Ok l ->
  exists fieldLayouts,
    l = borsh_struct fieldLayouts (Some (camelCase (variant_name v))) /\
    match variant_fields v with
    | None => fieldLayouts = []
    | Some fields => mapM (enumFieldLayout flayout) fields = Ok fieldLayouts
    end.
Proof.
  unfold variantLayout. destruct (variant_fields v) as [fields|].
  - destruct (mapM (enumFieldLayout flayout) fields) as [fls|]; simpl;
      [|discriminate].
    intros H. injection H as <-. exists fls. split; reflexivity.
  - intros H. injection H as <-. exists []. split; reflexivity.
Qed.

End EnumLayout.



(** ** Decoding what a layout encoded *)

Lemma pow2_8 (n : nat) : 2 ^ (8 * Z.of_nat n) = 256 ^ Z.of_nat n.
Proof. rewrite Z.pow_mul_r by lia. reflexivity. Qed.

Lemma lookup_NoDup (props : list (string * Value)) (k : string) (x : Value) :
  NoDup (map fst props) -> In (k, x) props -> lookup k props = Some x.
Proof.
  induction props as [|[k' x'] props IH]; simpl; intros Hnd Hin;
    [contradiction|].
  inversion Hnd as [|? ? Hk' Hnd']; subst.
  destruct Hin as [Heq|Hin].
  - injection Heq as -> ->. rewrite String.eqb_refl. reflexivity.
  - destruct (String.eqb_spec k' k) as [->|_]; [|auto].
    exfalso. apply Hk'. apply (in_map fst) in Hin. exact Hin.
Qed.

Lemma assign_fresh (k : string) (v : Value) (dest : list (string * Value)) :
  ~ In k (map fst dest) -> assign k v dest = dest ++ [(k, v)].
Proof.
  induction dest as [|[k' x'] dest IH]; simpl; intros Hk; [reflexivity|].
  destruct (String.eqb_spec k' k) as [->|_]; [tauto|].
  rewrite IH by tauto. reflexivity.
Qed.

Lemma sequence_roundtrip (el : Layout) (items : list Value) :
  Roundtrip el ->
  Forall (fits el) items ->
  exists chunks,
    mapM (encode el) items = Ok chunks /\
    forall rest,
      decode_seq (decode el) (List.length items) (List.concat chunks ++ rest)
      = Ok (items, rest).
Proof.
  intros Hel. induction 1 as [|v items Hv _ (chunks & Henc & Hdec)].
  - exists []. split; reflexivity.
  - destruct (Hel v Hv) as (bs & Hbs & Hback).
    exists (bs :: chunks). split.
    + simpl. rewrite Hbs. simpl. rewrite Henc. reflexivity.
    + intros rest. simpl. rewrite <- app_assoc, Hback. simpl.
      rewrite Hdec. reflexivity.
Qed.

Lemma fields_roundtrip (fields : list Layout) :
  Forall Roundtrip fields ->
  forall (all todo done : list (string * Value)),
    fitsFields fits fields todo ->
    (forall k x, In (k, x) todo -> lookup k all = Some x) ->
    NoDup (map fst (done ++ todo)) ->
    exists chunks,
      mapM (encodeField encode all) fields = Ok chunks /\
      forall rest,
        decodeFields decode fields (List.concat chunks ++ rest) done
        = Ok (VObject (done ++ todo), rest).
Proof.
  induction 1 as [|fd fds Hfd _ IH]; intros all todo done Hfit Hall Hnd.
  - destruct todo as [|[k x] todo]; [|contradiction].
    exists []. split; [reflexivity|]. intros rest. simpl.
    rewrite app_nil_r. reflexivity.
  - destruct todo as [|[k x] todo]; [contradiction|].
    destruct Hfit as (Hprop & Hx & Hrest).
    destruct (Hfd x Hx) as (bs & Hbs & Hback).
    destruct (IH all todo (done ++ [(k, x)]) Hrest) as (chunks & Henc & Hdec).
    + intros k' x' Hin. apply Hall. right. exact Hin.
    + rewrite <- app_assoc. exact Hnd.
    + exists (bs :: chunks). split.
      * simpl. unfold encodeField at 1. rewrite Hprop.
        rewrite (Hall k x) by (left; reflexivity).
        rewrite Hbs. simpl. rewrite Henc. reflexivity.
      * intros rest. simpl. rewrite <- app_assoc, Hback. simpl.
        rewrite Hprop, assign_fresh.
        -- rewrite Hdec, <- app_assoc. reflexivity.
        -- rewrite map_app in Hnd. apply NoDup_remove_2 in Hnd.
           intros Hin. apply Hnd. apply in_or_app. left. exact Hin.
Qed.

Lemma variant_roundtrip (variants : list Layout) :
  Forall Roundtrip variants ->
  forall (name : string) (payload : Value) (k : nat),
    fitsVariant fits name payload variants k ->
    exists bs i,
      (k + i < 256)%nat /\
      inferVariant encode [(name, payload)] variants k
      = Ok (byte_of_Z (Z.of_nat (k + i)) :: bs) /\
      forall rest,
        decodeVariant decode (bs ++ rest) variants i
        = Ok (VObject [(name, payload)], rest).
Proof.
  induction 1 as [|vlo vs Hvlo _ IH]; intros name payload k Hfit;
    [contradiction|].
  simpl in Hfit. simpl inferVariant.
  assert (Hskip :
    fitsVariant fits name payload vs (S k) ->
    exists bs i,
      (k + i < 256)%nat /\
      inferVariant encode [(name, payload)] vs (S k)
      = Ok (byte_of_Z (Z.of_nat (k + i)) :: bs) /\
      forall rest,
        decodeVariant decode (bs ++ rest) (vlo :: vs) i
        = Ok (VObject [(name, payload)], rest)).
  { intros Hfit'. destruct (IH name payload (S k) Hfit') as (bs & i & Hi & Henc & Hdec).
    exists bs, (S i). split; [lia|]. split.
    - rewrite Henc. do 3 f_equal. lia.
    - exact Hdec. }
  destruct (property vlo) as [p|] eqn:Hp; [|exact (Hskip Hfit)].
  destruct (String.eqb_spec name p) as [<-|_]; [|exact (Hskip Hfit)].
  destruct Hfit as (Hk & Hpayload).
  destruct (Hvlo payload Hpayload) as (bs & Hbs & Hback).
  exists bs, O. split; [lia|]. split.
  - replace (Nat.ltb k 256) with true by (symmetry; apply Nat.ltb_lt; lia).
    rewrite Hbs, Nat.add_0_r. reflexivity.
  - intros rest. simpl. rewrite Hback, Hp. reflexivity.
Qed.

(** Every layout gives back the values of its domain. *)
Theorem layout_roundtrip (l : Layout) : Roundtrip l.
Proof.
  induction l using Layout_nested_ind; intros v Hv.
  - (* bool *)
    destruct Hv as (b & ->). exists [if b then x01 else x00].
    split; [reflexivity|]. intros rest. destruct b; reflexivity.
  - (* unsigned integers *)
    destruct Hv as (z & -> & Hz). exists (le_bytes span z). split.
    + cbn [encode].
      replace ((0 <=? z) && (z <? 2 ^ (8 * Z.of_nat span))) with true;
        [reflexivity|].
      symmetry. apply andb_true_iff. split; [apply Z.leb_le|apply Z.ltb_lt]; lia.
    + intros rest. cbn [decode]. rewrite take_app by apply length_le_bytes.
      cbn [bind fst snd].
      rewrite le_value_le_bytes by (rewrite <- pow2_8; exact Hz).
      reflexivity.
  - (* signed integers *)
    destruct Hv as (z & -> & Hz).
    destruct span as [|span]; [simpl in Hz; lia|].
    set (n := S span) in *.
    assert (Hpow : 2 ^ (8 * Z.of_nat n) = 2 * 2 ^ (8 * Z.of_nat n - 1)).
    { rewrite <- Z.pow_succ_r by (unfold n; lia). f_equal. lia. }
    assert (Hhalf : 0 < 2 ^ (8 * Z.of_nat n - 1))
      by (apply Z.pow_pos_nonneg; unfold n; lia).
    exists (le_bytes n (z mod 2 ^ (8 * Z.of_nat n))). split.
    + cbn [encode].
      replace ((- 2 ^ (8 * Z.of_nat n - 1) <=? z) && (z <? 2 ^ (8 * Z.of_nat n - 1)))
        with true; [reflexivity|].
      symmetry. apply andb_true_iff. split; [apply Z.leb_le|apply Z.ltb_lt]; lia.
    + intros rest. cbn [decode]. rewrite take_app by apply length_le_bytes.
      cbn [bind fst snd].
      rewrite le_value_le_bytes
        by (rewrite <- pow2_8; apply Z.mod_pos_bound; lia).
      assert (Hnum :
        (if z mod 2 ^ (8 * Z.of_nat n) <? 2 ^ (8 * Z.of_nat n - 1)
         then z mod 2 ^ (8 * Z.of_nat n)
         else z mod 2 ^ (8 * Z.of_nat n) - 2 * 2 ^ (8 * Z.of_nat n - 1)) = z).
      { destruct (Z.ltb_spec (z mod 2 ^ (8 * Z.of_nat n)) (2 ^ (8 * Z.of_nat n - 1)))
          as [Hlt|Hge];
          destruct (Z.lt_ge_cases z 0) as [Hneg|Hpos].
        - rewrite <- (Z.mod_add z 1) in Hlt by lia.
          rewrite Z.mod_small in Hlt by lia. lia.
        - apply Z.mod_small. lia.
        - rewrite <- (Z.mod_add z 1) by lia.
          rewrite Z.mod_small by lia. lia.
        - rewrite Z.mod_small in Hge by lia. lia. }
      rewrite Hnum. reflexivity.
  - (* bytes *)
    destruct Hv as (data & -> & Hlen).
    assert (Henc : encode_blob data
                   = Ok (le_bytes 4 (Z.of_nat (List.length data)) ++ data)).
    { unfold encode_blob.
      replace (Z.of_nat (List.length data) <? 2 ^ 32) with true
        by (symmetry; apply Z.ltb_lt; assumption).
      reflexivity. }
    eexists. split; [exact Henc|]. intros rest. cbn [decode].
    rewrite (decode_blob_encode_blob data _ rest Henc). reflexivity.
  - (* strings *)
    destruct Hv as (s & -> & Hlen).
    assert (Henc : encode_blob (list_byte_of_string s)
                   = Ok (le_bytes 4 (Z.of_nat (List.length (list_byte_of_string s)))
                         ++ list_byte_of_string s)).
    { unfold encode_blob.
      replace (Z.of_nat (List.length (list_byte_of_string s)) <? 2 ^ 32) with true
        by (symmetry; apply Z.ltb_lt; assumption).
      reflexivity. }
    eexists. split; [exact Henc|]. intros rest. cbn [decode].
    rewrite (decode_blob_encode_blob _ _ rest Henc). cbn [bind fst snd].
    rewrite string_of_list_byte_of_string. reflexivity.
  - (* public keys *)
    destruct Hv as (bytes & -> & Hlen). exists bytes. split.
    + simpl. rewrite Hlen. reflexivity.
    + intros rest. cbn [decode]. rewrite take_app by assumption. reflexivity.
  - (* vec *)
    destruct Hv as (items & -> & Hlen & Hitems).
    destruct (sequence_roundtrip l items IHl Hitems) as (chunks & Henc & Hdec).
    exists (le_bytes 4 (Z.of_nat (List.length items)) ++ List.concat chunks).
    split.
    + cbn [encode].
      replace (Z.of_nat (List.length items) <? 2 ^ 32) with true
        by (symmetry; apply Z.ltb_lt; assumption).
      rewrite Henc. reflexivity.
    + intros rest. cbn [decode]. rewrite <- app_assoc.
      rewrite take_app by apply length_le_bytes. cbn [bind fst snd].
      rewrite le_value_le_bytes
        by (change (256 ^ Z.of_nat 4) with (2 ^ 32); lia).
      rewrite Nat2Z.id, Hdec. reflexivity.
  - (* option *)
    assert (Hnull : exists bs, encode (borsh_option l p) VNull = Ok bs /\
                      forall rest, decode (borsh_option l p) (bs ++ rest)
                                   = Ok (VNull, rest)).
    { exists [x00]. split; reflexivity. }
    destruct Hv as [->|Hv]; [exact Hnull|].
    destruct (IHl v Hv) as (bs & Hbs & Hback).
    destruct v; try exact Hnull;
      (exists (x01 :: bs); split;
       [cbn [encode]; rewrite Hbs; reflexivity
       |intros rest; apply (Hback rest)]).
  - (* array *)
    destruct Hv as (items & -> & Hlen & Hitems).
    destruct (sequence_roundtrip l items IHl Hitems) as (chunks & Henc & Hdec).
    exists (List.concat chunks). split.
    + cbn [encode]. rewrite Hlen, N.eqb_refl, Henc. reflexivity.
    + intros rest. cbn [decode]. rewrite <- Hlen, Nat2N.id, Hdec. reflexivity.
  - (* struct *)
    destruct Hv as (props & -> & Hnd & Hfit).
    destruct (fields_roundtrip fields H props props [] Hfit) as (chunks & Henc & Hdec).
    + intros k x Hin. apply lookup_NoDup; assumption.
    + exact Hnd.
    + exists (List.concat chunks). split.
      * cbn [encode]. rewrite Henc. reflexivity.
      * intros rest. cbn [decode]. apply Hdec.
  - (* enum *)
    destruct Hv as (name & payload & -> & Hfit).
    destruct (variant_roundtrip variants H name payload O Hfit)
      as (bs & i & Hi & Henc & Hdec).
    exists (byte_of_Z (Z.of_nat i) :: bs). split.
    + cbn [encode]. exact Henc.
    + intros rest. cbn [decode].
      change ((byte_of_Z (Z.of_nat i) :: bs) ++ rest)
        with ([byte_of_Z (Z.of_nat i)] ++ (bs ++ rest)).
      rewrite take_app by reflexivity. cbn [bind fst snd le_value].
      rewrite Z_of_byte_of_Z, Z.mod_small by lia.
      rewrite Z.mul_0_r, Z.add_0_r, Nat2Z.id. apply Hdec.
Qed.

(** The layout compiled for a field gives back the values it holds. *)
Corollary fieldLayout_roundtrip (camelCase : string -> string) (fuel : nat)
    (name : option string) (ty : IdlType) (types : option (list IdlTypeDef))
    (l : Layout) (v : Value) :
  fieldLayout camelCase fuel name ty types = Ok l ->
  fits l v ->
  exists bs, encode l v = Ok bs /\ decode l bs = Ok (v, []).
Proof.
  intros _ Hv. destruct (layout_roundtrip l v Hv) as (bs & Henc & Hdec).
  exists bs. split; [exact Henc|]. rewrite <- (app_nil_r bs) at 1. apply Hdec.
Qed.

(** ** The call depth

    A result obtained within some depth of calls is the result at every
    greater depth: the fuel only stands for the height of the stack. *)

Lemma mapM_mono {A B : Type} (f g : A -> result B) (l : list A) (bs : list B) :
  (forall a b, f a = Ok b -> g a = Ok b) ->
  mapM f l = Ok bs -> mapM g l = Ok bs.
Proof.
  intros Hfg. revert bs. induction l as [|a l IH]; intros bs; simpl; [auto|].
  destruct (f a) as [b|] eqn:Ha; simpl; [|discriminate].
  rewrite (Hfg a b Ha). simpl.
  destruct (mapM f l) as [bs'|]; simpl; [|discriminate].
  rewrite (IH bs' eq_refl). auto.
Qed.

Lemma accountSize_body_mono (t1 t2 : IdlType -> result number) :
  (forall ty n, t1 ty = Ok n -> t2 ty = Ok n) ->
  forall typeDef n,
    accountSize_body t1 typeDef = Ok n -> accountSize_body t2 typeDef = Ok n.
Proof.
  intros Ht typeDef n. unfold accountSize_body.
  destruct (typedef_type typeDef) as [fields|variants].
  - destruct (mapM (fun f => t1 (field_type f)) fields) as [sizes|] eqn:Hs;
      simpl; [|discriminate].
    rewrite (mapM_mono _ (fun f => t2 (field_type f)) _ _ (fun a b => Ht _ b) Hs).
    auto.
  - assert (Hfield : forall f b, enumFieldSize t1 f = Ok b ->
                                 enumFieldSize t2 f = Ok b).
    { intros [fld|ty] b; simpl; [apply Ht|discriminate]. }
    assert (Hvariant : forall v s, variantSize t1 v = Ok s ->
                                   variantSize t2 v = Ok s).
    { intros v s. unfold variantSize.
      destruct (variant_fields v) as [fields|]; [|auto].
      destruct (mapM (enumFieldSize t1) fields) as [fs|] eqn:Hfs;
        simpl; [|discriminate].
      rewrite (mapM_mono _ (enumFieldSize t2) _ _ Hfield Hfs). auto. }
    destruct (mapM (variantSize t1) variants) as [sizes|] eqn:Hs;
      simpl; [|discriminate].
    rewrite (mapM_mono _ (variantSize t2) _ _ Hvariant Hs). auto.
Qed.

Lemma typeSize_fuel_S (idl : Idl) (fuel : nat) :
  forall ty n, typeSize fuel idl ty = Ok n -> typeSize (S fuel) idl ty = Ok n.
Proof.
  induction fuel as [|fuel IH]; intros ty n H; [discriminate|].
  destruct ty as [| | | | | | | | | | | | | |defined|inner|inner|inner size];
    try exact H.
  - (* Defined *)
    cbn [typeSize] in H. cbn [typeSize].
    destruct (match idl_types idl with
              | Some types => filterByName defined types
              | None => []
              end) as [|typeDef [|? ?]]; try discriminate.
    apply (accountSize_body_mono (typeSize fuel idl)); [exact IH|exact H].
  - (* Option *)
    change (typeSize (S fuel) idl (Option inner))
      with (s <- typeSize fuel idl inner ;; Ok (num_add (Fin 1) s)) in H.
    change (typeSize (S (S fuel)) idl (Option inner))
      with (s <- typeSize (S fuel) idl inner ;; Ok (num_add (Fin 1) s)).
    destruct (typeSize fuel idl inner) as [s|] eqn:Hs; [|discriminate].
    rewrite (IH inner s Hs). exact H.
  - (* Array *)
    change (typeSize (S fuel) idl (Array inner size))
      with (s <- typeSize fuel idl inner ;; Ok (num_mul s size)) in H.
    change (typeSize (S (S fuel)) idl (Array inner size))
      with (s <- typeSize (S fuel) idl inner ;; Ok (num_mul s size)).
    destruct (typeSize fuel idl inner) as [s|] eqn:Hs; [|discriminate].
    rewrite (IH inner s Hs). exact H.
Qed.

Lemma typeSize_fuel_le (idl : Idl) (fuel fuel' : nat) (ty : IdlType) (n : number) :
  (fuel <= fuel')%nat ->
  typeSize fuel idl ty = Ok n -> typeSize fuel' idl ty = Ok n.
Proof.
  induction 1 as [|fuel' _ IH]; [auto|].
  intros H. apply typeSize_fuel_S, IH, H.
Qed.

Lemma accountSize_fuel_le (idl : Idl) (fuel fuel' : nat) (typeDef : IdlTypeDef)
    (n : number) :
  (fuel <= fuel')%nat ->
  accountSize fuel idl typeDef = Ok n -> accountSize fuel' idl typeDef = Ok n.
Proof.
  intros Hle. unfold accountSize. apply accountSize_body_mono.
  intros ty s. apply typeSize_fuel_le, Hle.
Qed.

Lemma typeDefLayout_body_mono (camelCase : string -> string)
    (f1 f2 : option string -> IdlType -> result Layout) :
  (forall n ty l, f1 n ty = Ok l -> f2 n ty = Ok l) ->
  forall typeDef name l,
    typeDefLayout_body camelCase f1 typeDef name = Ok l ->
    typeDefLayout_body camelCase f2 typeDef name = Ok l.
Proof.
  intros Hf typeDef name l. unfold typeDefLayout_body.
  destruct (typedef_type typeDef) as [fields|variants].
  - destruct (mapM (fun field => f1 (Some (field_name field)) (field_type field))
                   fields) as [ls|] eqn:Hls; simpl; [|discriminate].
    rewrite (mapM_mono _
               (fun field => f2 (Some (field_name field)) (field_type field))
               _ _ (fun a b => Hf _ _ b) Hls).
    auto.
  - assert (Hfield : forall f b, enumFieldLayout f1 f = Ok b ->
                                 enumFieldLayout f2 f = Ok b).
    { intros [fld|ty] b; simpl; [apply Hf|discriminate]. }
    assert (Hvariant : forall v b, variantLayout camelCase f1 v = Ok b ->
                                   variantLayout camelCase f2 v = Ok b).
    { intros v b. unfold variantLayout.
      destruct (variant_fields v) as [fields|]; [|auto].
      destruct (mapM (enumFieldLayout f1) fields) as [fls|] eqn:Hfls;
        simpl; [|discriminate].
      rewrite (mapM_mono _ (enumFieldLayout f2) _ _ Hfield Hfls). auto. }
    destruct (mapM (variantLayout camelCase f1) variants) as [ls|] eqn:Hls;
      simpl; [|discriminate].
    rewrite (mapM_mono _ (variantLayout camelCase f2) _ _ Hvariant Hls). auto.
Qed.

Lemma fieldLayout_fuel_S (camelCase : string -> string) (fuel : nat) :
  forall name ty types l,
    fieldLayout camelCase fuel name ty types = Ok l ->
    fieldLayout camelCase (S fuel) name ty types = Ok l.
Proof.
  induction fuel as [|fuel IH]; intros name ty types l H; [discriminate|].
  destruct ty as [| | | | | | | | | | | | | |defined|inner|inner|inner size];
    try exact H.
  - (* Defined *)
    cbn [fieldLayout] in H. cbn [fieldLayout].
    destruct types as [tys|]; [|discriminate].
    destruct (filterByName defined tys) as [|typeDef [|? ?]]; try discriminate.
    apply (typeDefLayout_body_mono camelCase
             (fun n t => fieldLayout camelCase fuel n t (Some tys)));
      [|exact H].
    intros n t l'. apply IH.
  - (* Option *)
    change (fieldLayout camelCase (S fuel) name (Option inner) types)
      with (l0 <- fieldLayout camelCase fuel None inner types ;;
            Ok (borsh_option l0 (option_map camelCase name))) in H.
    change (fieldLayout camelCase (S (S fuel)) name (Option inner) types)
      with (l0 <- fieldLayout camelCase (S fuel) None inner types ;;
            Ok (borsh_option l0 (option_map camelCase name))).
    destruct (fieldLayout camelCase fuel None inner types) as [l0|] eqn:Hl0;
      [|discriminate].
    rewrite (IH _ _ _ _ Hl0). exact H.
  - (* Array *)
    change (fieldLayout camelCase (S fuel) name (Array inner size) types)
      with (l0 <- fieldLayout camelCase fuel None inner types ;;
            Ok (borsh_array l0 size (option_map camelCase name))) in H.
    change (fieldLayout camelCase (S (S fuel)) name (Array inner size) types)
      with (l0 <- fieldLayout camelCase (S fuel) None inner types ;;
            Ok (borsh_array l0 size (option_map camelCase name))).
    destruct (fieldLayout camelCase fuel None inner types) as [l0|] eqn:Hl0;
      [|discriminate].
    rewrite (IH _ _ _ _ Hl0). exact H.
Qed.

Lemma fieldLayout_fuel_le (camelCase : string -> string) (fuel fuel' : nat)
    (name : option string) (ty : IdlType) (types : option (list IdlTypeDef))
    (l : Layout) :
  (fuel <= fuel')%nat ->
  fieldLayout camelCase fuel name ty types = Ok l ->
  fieldLayout camelCase fuel' name ty types = Ok l.
Proof.
  induction 1 as [|fuel' _ IH]; [auto|].
  intros H. apply fieldLayout_fuel_S, IH, H.
Qed.

(** * Further properties of the code *)

(** ** Types without references *)



(** X2: on a type that reaches no [Defined] reference, and within a call
    depth above its nesting, [fieldLayout] returns a layout exactly when no
    [Vec] is reached; when one is, it throws the [TypeError] of the [in]
    test on [undefined], whatever list of types is passed. *)
Theorem fieldLayout_simple_iff_no_Vec (camelCase : string -> string)
    (ty : IdlType) :
  forall (fuel : nat) (name : option string) (types : option (list IdlTypeDef)),
    simpleType ty = true ->
    (depth ty < fuel)%nat ->
    if reachesVec ty
    then fieldLayout camelCase fuel name ty types = Err TypeError_InUndefined
    else exists l, fieldLayout camelCase fuel name ty types = Ok l.
Proof.
  induction ty as [| | | | | | | | | | | | | |defined|inner IH|inner _|inner IH size];
    intros fuel name types Hsimple Hdepth;
    (destruct fuel as [|fuel]; [simpl in Hdepth; lia|]);
    try (cbn [reachesVec]; eexists; reflexivity).
  - discriminate.
  - simpl in Hsimple, Hdepth. cbn [reachesVec].
    specialize (IH fuel None types Hsimple ltac:(lia)).
    change (fieldLayout camelCase (S fuel) name (Option inner) types)
      with (l <- fieldLayout camelCase fuel None inner types ;;
            Ok (borsh_option l (option_map camelCase name))).
    revert IH. destruct (reachesVec inner); cbv beta iota; intros IH.
    + rewrite IH. reflexivity.
    + destruct IH as (l0 & Hl0). rewrite Hl0. eexists. reflexivity.
  - simpl in Hsimple, Hdepth. cbn [reachesVec].
    specialize (IH fuel None types Hsimple ltac:(lia)).
    change (fieldLayout camelCase (S fuel) name (Array inner size) types)
      with (l <- fieldLayout camelCase fuel None inner types ;;
            Ok (borsh_array l size (option_map camelCase name))).
    revert IH. destruct (reachesVec inner); cbv beta iota; intros IH.
    + rewrite IH. reflexivity.
    + destruct IH as (l0 & Hl0). rewrite Hl0. eexists. reflexivity.
Qed.

(** A use of X2: an optional array of bytes is compiled, an optional
    vector is not. *)
Lemma fieldLayout_simple_iff_no_Vec_witness :
  (exists l, fieldLayout (fun s => s) 3 (Some "a") (Option (Array U8 2)) None = Ok l) /\
  fieldLayout (fun s => s) 3 (Some "a") (Option (Vec U8)) None
  = Err TypeError_InUndefined.
Proof.
  split.
  - exact (fieldLayout_simple_iff_no_Vec (fun s => s) (Option (Array U8 2)) 3
             (Some "a") None eq_refl ltac:(simpl; lia)).
  - exact (fieldLayout_simple_iff_no_Vec (fun s => s) (Option (Vec U8)) 3
             (Some "a") None eq_refl ltac:(simpl; lia)).
Defined.

(** ** Type definitions that refer to themselves *)

Lemma mapM_Err_In {A B : Type} (f : A -> result B) (l : list A) (e : exn) :
  mapM f l = Err e -> exists a, In a l /\ f a = Err e.
Proof.
  induction l as [|a l IH]; simpl; [discriminate|].
  destruct (f a) as [b|e'] eqn:Ha; simpl.
  - destruct (mapM f l) as [bs|e']; simpl; [discriminate|].
    intros H. injection H as ->.
    destruct (IH eq_refl) as (a' & Hin & Ha'). exists a'. auto.
  - intros H. injection H as ->. exists a. auto.
Qed.

(** A field whose size is not obtained leaves the type definition without
    a size. *)
Lemma accountSize_body_field_Err (tsize : IdlType -> result number)
    (typeDef : IdlTypeDef) (ty : IdlType) :
  In ty (fieldTypes typeDef) -> is_Err (tsize ty) ->
  is_Err (accountSize_body tsize typeDef).
Proof.
  unfold fieldTypes, accountSize_body.
  destruct (typedef_type typeDef) as [fields|variants]; intros Hin Hty.
  - apply in_map_iff in Hin. destruct Hin as (f & <- & Hin).
    apply is_Err_bind. apply (mapM_In_Err _ _ f Hin). exact Hty.
  - apply in_flat_map in Hin. destruct Hin as (v & Hv & Hin).
    apply is_Err_bind. apply (mapM_In_Err _ _ v Hv).
    unfold variantSize. destruct (variant_fields v) as [fields|];
      [|contradiction].
    apply in_flat_map in Hin. destruct Hin as (f & Hf & Hin).
    apply is_Err_bind. apply (mapM_In_Err _ _ f Hf).
    destruct f as [fld|t]; [|contradiction].
    destruct Hin as [<-|[]]. exact Hty.
Qed.

(** A field that is not compiled leaves the type definition without a
    layout. *)
Lemma typeDefLayout_body_field_Err (camelCase : string -> string)
    (flayout : option string -> IdlType -> result Layout)
    (typeDef : IdlTypeDef) (name : option string) (ty : IdlType) :
  In ty (fieldTypes typeDef) -> (forall n, is_Err (flayout n ty)) ->
  is_Err (typeDefLayout_body camelCase flayout typeDef name).
Proof.
  unfold fieldTypes, typeDefLayout_body.
  destruct (typedef_type typeDef) as [fields|variants]; intros Hin Hty.
  - apply in_map_iff in Hin. destruct Hin as (f & <- & Hin).
    apply is_Err_bind. apply (mapM_In_Err _ _ f Hin). apply Hty.
  - apply in_flat_map in Hin. destruct Hin as (v & Hv & Hin).
    apply is_Err_bind. apply (mapM_In_Err _ _ v Hv).
    unfold variantLayout. destruct (variant_fields v) as [fields|];
      [|contradiction].
    apply in_flat_map in Hin. destruct Hin as (f & Hf & Hin).
    apply is_Err_bind. apply (mapM_In_Err _ _ f Hf).
    destruct f as [fld|t]; [|contradiction].
    destruct Hin as [<-|[]]. apply Hty.
Qed.

(** X3: when the type definition that a name resolves to has a named field
    whose type is a reference to that same name, directly or inside
    [Option] and [Array], the size estimator never returns for a reference
    to it: at every call depth [typeSize] and [accountSize] end in an
    exception. *)
Theorem typeSize_self_reference_never_returns (idl : Idl)
    (types : list IdlTypeDef) (name : string) (typeDef : IdlTypeDef)
    (ty : IdlType) :
  idl_types idl = Some types ->
  filterByName name types = [typeDef] ->
  In ty (fieldTypes typeDef) ->
  Wraps name ty ->
  forall fuel,
    is_Err (typeSize fuel idl (Defined name)) /\
    is_Err (accountSize fuel idl typeDef).
Proof.
  intros Htypes Hfilter Hin Hwraps.
  assert (Hall : forall fuel t, Wraps name t -> is_Err (typeSize fuel idl t)).
  { induction fuel as [|fuel IH]; intros t Ht; [exact I|].
    destruct Ht as [|inner Hinner|inner size Hinner].
    - simpl. rewrite Htypes, Hfilter.
      apply (accountSize_body_field_Err _ _ ty Hin). apply IH, Hwraps.
    - simpl. apply is_Err_bind. apply IH, Hinner.
    - simpl. apply is_Err_bind. apply IH, Hinner. }
  intros fuel. split.
  - apply Hall. constructor.
  - apply (accountSize_body_field_Err _ _ ty Hin). apply Hall, Hwraps.
Qed.

(** A use of X3: a list node with an optional reference to the next
    node. *)
Lemma typeSize_self_reference_never_returns_witness :
  let node :=
    mkIdlTypeDef "Node"
      (IdlTypeDefTyStruct [mkIdlField "value" U64;
                           mkIdlField "next" (Option (Defined "Node"))]) in
  let idl := mkIdl "0.0.0" "demo" None (Some [node]) in
  is_Err (typeSize 100 idl (Defined "Node")) /\ is_Err (accountSize 100 idl node).
Proof.
  intros node idl.
  apply (typeSize_self_reference_never_returns idl [node] "Node" node
           (Option (Defined "Node")) eq_refl eq_refl).
  - right. left. reflexivity.
  - repeat constructor.
Defined.

(** X4: under the same condition the layout compiler never returns
    either: at every call depth [fieldLayout] on a reference to the name
    and [typeDefLayout] on the definition end in an exception. *)
Theorem fieldLayout_self_reference_never_returns (camelCase : string -> string)
    (types : list IdlTypeDef) (name : string) (typeDef : IdlTypeDef)
    (ty : IdlType) :
  filterByName name types = [typeDef] ->
  In ty (fieldTypes typeDef) ->
  Wraps name ty ->
  forall fuel fieldName layoutName,
    is_Err (fieldLayout camelCase fuel fieldName (Defined name) (Some types)) /\
    is_Err (typeDefLayout camelCase fuel typeDef (Some types) layoutName).
Proof.
  intros Hfilter Hin Hwraps.
  assert (Hall : forall fuel t n, Wraps name t ->
                   is_Err (fieldLayout camelCase fuel n t (Some types))).
  { induction fuel as [|fuel IH]; intros t n Ht; [exact I|].
    destruct Ht as [|inner Hinner|inner size Hinner].
    - simpl. rewrite Hfilter.
      apply (typeDefLayout_body_field_Err _ _ _ _ ty Hin).
      intros n'. apply IH, Hwraps.
    - simpl. apply is_Err_bind. apply IH, Hinner.
    - simpl. apply is_Err_bind. apply IH, Hinner. }
  intros fuel fieldName layoutName. split.
  - apply Hall. constructor.
  - apply (typeDefLayout_body_field_Err _ _ _ _ ty Hin).
    intros n'. apply Hall, Hwraps.
Qed.

(** A use of X4: an enum with a variant that holds an array of itself. *)
Lemma fieldLayout_self_reference_never_returns_witness :
  let tree :=
    mkIdlTypeDef "Tree"
      (IdlTypeDefTyEnum
         [mkIdlEnumVariant "Leaf" None;
          mkIdlEnumVariant "Fork"
            (Some [NamedField (mkIdlField "children" (Array (Defined "Tree") 2))])]) in
  is_Err (fieldLayout (fun s => s) 100 (Some "t") (Defined "Tree") (Some [tree])) /\
  is_Err (typeDefLayout (fun s => s) 100 tree (Some [tree]) None).
Proof.
  intros tree.
  apply (fieldLayout_self_reference_never_returns (fun s => s) [tree] "Tree" tree
           (Array (Defined "Tree") 2) eq_refl).
  - left. reflexivity.
  - repeat constructor.
Defined.

(** ** The sizes that are returned *)






(** ** The names carried by the layouts *)

Lemma typeDefLayout_body_property (camelCase : string -> string)
    (flayout : option string -> IdlType -> result Layout)
    (typeDef : IdlTypeDef) (name : option string) (l : Layout) :
  typeDefLayout_body camelCase flayout typeDef name = Ok l -> property l = name.
Proof.
  unfold typeDefLayout_body.
  destruct (typedef_type typeDef) as [fields|variants];
    match goal with
    | |- bind ?m _ = _ -> _ => destruct m; simpl; [|discriminate]
    end;
    intros H; injection H as <-; reflexivity.
Qed.

Lemma fieldLayout_property (camelCase : string -> string) (fuel : nat)
    (name : option string) (ty : IdlType) (types : option (list IdlTypeDef))
    (l : Layout) :
  fieldLayout camelCase fuel name ty types = Ok l ->
  property l = option_map camelCase name.
Proof.
  destruct fuel as [|fuel]; [discriminate|].
  destruct ty as [| | | | | | | | | | | | | |defined|inner|inner|inner size];
    try (intros H; injection H as <-; reflexivity).
  - cbn [fieldLayout]. destruct types as [tys|]; [|discriminate].
    destruct (filterByName defined tys) as [|typeDef [|? ?]]; try discriminate.
    apply typeDefLayout_body_property.
  - change (fieldLayout camelCase (S fuel) name (Option inner) types)
      with (l0 <- fieldLayout camelCase fuel None inner types ;;
            Ok (borsh_option l0 (option_map camelCase name))).
    destruct (fieldLayout camelCase fuel None inner types); simpl;
      [|discriminate].
    intros H; injection H as <-; reflexivity.
  - discriminate.
  - change (fieldLayout camelCase (S fuel) name (Array inner size) types)
      with (l0 <- fieldLayout camelCase fuel None inner types ;;
            Ok (borsh_array l0 size (option_map camelCase name))).
    destruct (fieldLayout camelCase fuel None inner types); simpl;
      [|discriminate].
    intros H; injection H as <-; reflexivity.
Qed.

(** X7: a layout that [fieldLayout] returns carries the name of the field
    in camel case as its property, and none when the field has no name;
    a layout that [typeDefLayout] returns carries the name it was given,
    as it is. *)
Theorem compiled_layout_property (camelCase : string -> string) (fuel : nat)
    (types : option (list IdlTypeDef)) :
  (forall name ty l,
      fieldLayout camelCase fuel name ty types = Ok l ->
      property l = option_map camelCase name) /\
  (forall typeDef name l,
      typeDefLayout camelCase fuel typeDef types name = Ok l ->
      property l = name).
Proof.
  split.
  - intros name ty l. apply fieldLayout_property.
  - intros typeDef name l. apply typeDefLayout_body_property.
Qed.

(** A use of X7, with a [camelCase] that drops underscores. *)
Lemma compiled_layout_property_witness :
  let camel := fun s =>
    string_of_list_ascii
      (filter (fun c => negb (Ascii.eqb c "_"%char)) (list_ascii_of_string s)) in
  property (borsh_option (borsh_u8 None) (Some "myfield")) = Some "myfield" /\
  property (borsh_struct [] (Some "my_type")) = Some "my_type".
Proof.
  intros camel.
  destruct (compiled_layout_property camel 2 None) as (Hfield & Htypedef).
  split.
  - apply (Hfield (Some "my_field") (Option U8)). reflexivity.
  - apply (Htypedef (mkIdlTypeDef "T" (IdlTypeDefTyStruct [])) (Some "my_type")).
    reflexivity.
Defined.

(** X8: the layout of a struct is a struct layout with one field layout
    per declared field, in the order of the declaration, each carrying the
    name of its field in camel case. *)
Theorem typeDefLayout_struct_fields_in_order (camelCase : string -> string)
    (fuel : nat) (tname : string) (fields : list IdlField)
    (types : option (list IdlTypeDef)) (name : option string) (l : Layout) :
  typeDefLayout camelCase fuel
    (mkIdlTypeDef tname (IdlTypeDefTyStruct fields)) types name = Ok l ->
  exists fieldLayouts,
    l = borsh_struct fieldLayouts name /\
    map property fieldLayouts
    = map (fun f => Some (camelCase (field_name f))) fields /\
    Forall2 (fun f fl =>
               fieldLayout camelCase fuel (Some (field_name f)) (field_type f)
                 (Some match types with Some tys => tys | None => [] end)
               = Ok fl) fields fieldLayouts.
Proof.
  unfold typeDefLayout, typeDefLayout_body. cbn [typedef_type].
  match goal with
  | |- bind ?m _ = _ -> _ => destruct m as [ls|] eqn:Hls; simpl; [|discriminate]
  end.
  intros H. injection H as <-. exists ls. split; [reflexivity|].
  apply mapM_Ok_Forall2 in Hls. split; [|exact Hls].
  induction Hls as [|f fl fields ls Hf _ IH]; [reflexivity|].
  simpl. rewrite IH. f_equal. apply (fieldLayout_property _ _ _ _ _ _ Hf).
Qed.

(** A use of X8: a struct of two fields. *)
Lemma typeDefLayout_struct_fields_in_order_witness :
  exists fieldLayouts,
    map property fieldLayouts = [Some "amount"; Some "owner"].
Proof.
  destruct (typeDefLayout_struct_fields_in_order (fun s => s) 1 "Vault"
              [mkIdlField "amount" U64; mkIdlField "owner" PublicKey]
              None None _ eq_refl) as (ls & _ & Hnames & _).
  exists ls. exact Hnames.
Defined.

(** X9: the layout of an enum is an enum layout with one variant layout per
    declared variant, in the order of the declaration; each is a struct
    layout that carries the name of its variant in camel case, and a
    variant with an empty [fields] array gets the same layout as one
    without [fields]. *)
Theorem typeDefLayout_enum_variants_in_order (camelCase : string -> string)
    (fuel : nat) (tname : string) (variants : list IdlEnumVariant)
    (types : option (list IdlTypeDef)) (name : option string) (l : Layout) :
  typeDefLayout camelCase fuel
    (mkIdlTypeDef tname (IdlTypeDefTyEnum variants)) types name = Ok l ->
  exists variantLayouts,
    l = borsh_rustEnum variantLayouts name /\
    Forall2 (fun v vl =>
               exists fieldLayouts,
                 vl = borsh_struct fieldLayouts (Some (camelCase (variant_name v))) /\
                 (variant_fields v = None \/ variant_fields v = Some [] ->
                  fieldLayouts = []))
            variants variantLayouts.
Proof.
  unfold typeDefLayout, typeDefLayout_body. cbn [typedef_type].
  match goal with
  | |- bind ?m _ = _ -> _ => destruct m as [ls|] eqn:Hls; simpl; [|discriminate]
  end.
  intros H. injection H as <-. exists ls. split; [reflexivity|].
  apply mapM_Ok_Forall2 in Hls.
  induction Hls as [|v vl variants ls Hv _ IH]; constructor; [|exact IH].
  destruct (variantLayout_struct _ _ v vl Hv) as (fls & -> & Hfls).
  exists fls. split; [reflexivity|].
  intros [Hnone|Hempty].
  - rewrite Hnone in Hfls. exact Hfls.
  - rewrite Hempty in Hfls. simpl in Hfls. congruence.
Qed.

(** A use of X9: an enum of two variants, the second with an empty
    [fields] array. *)
Lemma typeDefLayout_enum_variants_in_order_witness :
  exists variantLayouts,
    Forall2 (fun v vl =>
               exists fieldLayouts,
                 vl = borsh_struct fieldLayouts (Some (variant_name v)) /\
                 (variant_fields v = None \/ variant_fields v = Some [] ->
                  fieldLayouts = []))
            [mkIdlEnumVariant "On" None; mkIdlEnumVariant "Off" (Some [])]
            variantLayouts.
Proof.
  destruct (typeDefLayout_enum_variants_in_order (fun s => s) 1 "Switch"
              [mkIdlEnumVariant "On" None; mkIdlEnumVariant "Off" (Some [])]
              None None _ eq_refl) as (ls & _ & H).
  exists ls. exact H.
Defined.

(** ** The list of types *)

(** An exception of the compilation of a type definition is the one for
    tuple variants or comes from the compilation of a field. *)
Lemma typeDefLayout_body_Err (camelCase : string -> string)
    (flayout : option string -> IdlType -> result Layout)
    (typeDef : IdlTypeDef) (name : option string) (e : exn) :
  typeDefLayout_body camelCase flayout typeDef name = Err e ->
  e = Error_TupleEnumVariants \/ exists n ty, flayout n ty = Err e.
Proof.
  unfold typeDefLayout_body.
  destruct (typedef_type typeDef) as [fields|variants].
  - destruct (mapM _ fields) as [ls|e'] eqn:Hls; simpl; [discriminate|].
    intros H. injection H as ->.
    apply mapM_Err_In in Hls. destruct Hls as (f & _ & Hf). right. eauto.
  - destruct (mapM _ variants) as [ls|e'] eqn:Hls; simpl; [discriminate|].
    intros H. injection H as ->.
    apply mapM_Err_In in Hls. destruct Hls as (v & _ & Hv).
    unfold variantLayout in Hv.
    destruct (variant_fields v) as [fields|]; [|discriminate].
    destruct (mapM _ fields) as [fls|e'] eqn:Hfls; simpl in Hv; [discriminate|].
    injection Hv as ->.
    apply mapM_Err_In in Hfls. destruct Hfls as ([fld|t] & _ & Hf); simpl in Hf.
    + right. eauto.
    + left. congruence.
Qed.

Lemma fieldLayout_types_provided (camelCase : string -> string)
    (tys : list IdlTypeDef) (fuel : nat) :
  forall name ty,
    fieldLayout camelCase fuel name ty (Some tys)
    <> Err IdlError_UserTypesNotProvided.
Proof.
  induction fuel as [|fuel IH]; intros name ty; [discriminate|].
  destruct ty as [| | | | | | | | | | | | | |defined|inner|inner|inner size];
    try discriminate.
  - cbn [fieldLayout].
    destruct (filterByName defined tys) as [|typeDef [|? ?]]; try discriminate.
    intros H. apply typeDefLayout_body_Err in H.
    destruct H as [H|(n & ty & H)]; [discriminate|]. exact (IH _ _ H).
  - change (fieldLayout camelCase (S fuel) name (Option inner) (Some tys))
      with (l0 <- fieldLayout camelCase fuel None inner (Some tys) ;;
            Ok (borsh_option l0 (option_map camelCase name))).
    destruct (fieldLayout camelCase fuel None inner (Some tys)) as [l0|e] eqn:He;
      simpl; [discriminate|].
    intros H. injection H as ->. exact (IH _ _ He).
  - change (fieldLayout camelCase (S fuel) name (Array inner size) (Some tys))
      with (l0 <- fieldLayout camelCase fuel None inner (Some tys) ;;
            Ok (borsh_array l0 size (option_map camelCase name))).
    destruct (fieldLayout camelCase fuel None inner (Some tys)) as [l0|e] eqn:He;
      simpl; [discriminate|].
    intros H. injection H as ->. exact (IH _ _ He).
Qed.

(** X10: the exception "User defined types not provided" is thrown only by
    [fieldLayout] called without a list of types: with a list it is never
    thrown, and [typeDefLayout], whose list defaults to the empty one,
    never throws it; without a list, a reference inside [Option] and
    [Array] wrappers throws it once the call depth allows to reach it. *)
Theorem user_types_not_provided_only_without_types
    (camelCase : string -> string) (fuel : nat) :
  (forall tys name ty,
      fieldLayout camelCase fuel name ty (Some tys)
      <> Err IdlError_UserTypesNotProvided) /\
  (forall typeDef types name,
      typeDefLayout camelCase fuel typeDef types name
      <> Err IdlError_UserTypesNotProvided) /\
  (forall defined ty name,
      Wraps defined ty -> (depth ty < fuel)%nat ->
      fieldLayout camelCase fuel name ty None
      = Err IdlError_UserTypesNotProvided).
Proof.
  split; [|split].
  - intros tys name ty. apply fieldLayout_types_provided.
  - intros typeDef types name H. unfold typeDefLayout in H.
    apply typeDefLayout_body_Err in H.
    destruct H as [H|(n & ty & H)]; [discriminate|].
    exact (fieldLayout_types_provided _ _ _ _ _ H).
  - intros defined ty name Hwraps. revert fuel name.
    induction Hwraps as [|inner _ IH|inner size _ IH]; intros fuel name Hdepth;
      (destruct fuel as [|fuel]; [simpl in Hdepth; lia|]).
    + reflexivity.
    + simpl in Hdepth. simpl. rewrite IH by lia. reflexivity.
    + simpl in Hdepth. simpl. rewrite IH by lia. reflexivity.
Qed.

(** A use of X10: an optional reference compiled without a list of
    types. *)
Lemma user_types_not_provided_only_without_types_witness :
  fieldLayout (fun s => s) 2 (Some "f") (Option (Defined "T")) None
  = Err IdlError_UserTypesNotProvided.
Proof.
  destruct (user_types_not_provided_only_without_types (fun s => s) 2)
    as (_ & _ & H).
  apply (H "T").
  - repeat constructor.
  - simpl. lia.
Defined.

(** ** The order of the declarations and the size *)


Lemma num_max_swap (a x y : number) :
  num_max (num_max a x) y = num_max (num_max a y) x.
Proof. destruct a, x, y; simpl; try reflexivity; f_equal; lia. Qed.

Lemma fold_left_Permutation (op : number -> number -> number)
    (l l' : list number) :
  (forall a x y, op (op a x) y = op (op a y) x) ->
  Permutation l l' ->
  forall a, fold_left op l a = fold_left op l' a.
Proof.
  intros Hswap. induction 1 as [|x l l' _ IH|x y l|l l' l'' _ IH1 _ IH2];
    intros a; simpl.
  - reflexivity.
  - apply IH.
  - rewrite Hswap. reflexivity.
  - rewrite IH1. apply IH2.
Qed.

Lemma mapM_Permutation {A B : Type} (f : A -> result B) (l l' : list A) :
  Permutation l l' ->
  forall bs, mapM f l = Ok bs ->
             exists bs', mapM f l' = Ok bs' /\ Permutation bs bs'.
Proof.
  induction 1 as [|x l l' _ IH|x y l|l l' l'' _ IH1 _ IH2]; intros bs; simpl.
  - intros H. exists bs. split; [exact H|]. injection H as <-. constructor.
  - destruct (f x) as [b|]; simpl; [|discriminate].
    destruct (mapM f l) as [bs0|]; simpl; [|discriminate].
    intros H. injection H as <-.
    destruct (IH bs0 eq_refl) as (bs' & -> & Hp).
    exists (b :: bs'). split; [reflexivity|]. constructor. exact Hp.
  - destruct (f y) as [by'|]; simpl; [|discriminate].
    destruct (f x) as [bx|]; simpl; [|discriminate].
    destruct (mapM f l) as [bs0|]; simpl; [|discriminate].
    intros H. injection H as <-.
    exists (bx :: by' :: bs0). split; [reflexivity|]. constructor.
  - intros H. destruct (IH1 bs H) as (bs' & H' & Hp).
    destruct (IH2 bs' H') as (bs'' & H'' & Hp').
    exists bs''. split; [exact H''|]. eapply Permutation_trans; eassumption.
Qed.



(** X12: the size of an enum does not depend on the order of its variants
    either, although the bytes of its values do. *)
Theorem accountSize_enum_any_order (fuel : nat) (idl : Idl)
    (name name' : string) (variants variants' : list IdlEnumVariant)
    (n : number) :
  Permutation variants variants' ->
  accountSize fuel idl (mkIdlTypeDef name (IdlTypeDefTyEnum variants)) = Ok n ->
  accountSize fuel idl (mkIdlTypeDef name' (IdlTypeDefTyEnum variants')) = Ok n.
Proof.
  intros Hp. unfold accountSize, accountSize_body. cbn [typedef_type].
  destruct (mapM (variantSize (typeSize fuel idl)) variants)
    as [sizes|] eqn:Hs; simpl; [|discriminate].
  destruct (mapM_Permutation _ _ _ Hp sizes Hs) as (sizes' & -> & Hps).
  simpl. intros H. rewrite <- H. do 2 f_equal. unfold Math_max.
  symmetry. apply fold_left_Permutation; [apply num_max_swap|exact Hps].
Qed.

(** A use of X12: two variants exchanged. *)
Lemma accountSize_enum_any_order_witness :
  accountSize 1 (mkIdl "0.0.0" "demo" None None)
    (mkIdlTypeDef "E"
       (IdlTypeDefTyEnum
          [mkIdlEnumVariant "B" (Some [NamedField (mkIdlField "y" U64)]);
           mkIdlEnumVariant "A" None]))
  = Ok (Fin 9).
Proof.
  apply (accountSize_enum_any_order 1 _ "E" "E"
           [mkIdlEnumVariant "A" None;
            mkIdlEnumVariant "B" (Some [NamedField (mkIdlField "y" U64)])]).
  - apply perm_swap.
  - reflexivity.
Defined.

(** ** The buffer of [encodeIdlAccount] and the input of [decodeIdlAccount] *)

(** X13: whenever [encodeIdlAccount] returns, the authority has 32 bytes,
    the data has at most 964 bytes, and the result is the authority, the
    length of the data on four bytes and the data; it is never longer than
    the 1000 bytes of the buffer. *)
Theorem encodeIdlAccount_returns_only_within_buffer (acc : IdlProgramAccount)
    (out : list byte) :
  encodeIdlAccount acc = Ok out ->
  List.length (authority acc) = 32%nat /\
  (List.length (data acc) <= 964)%nat /\
  out = authority acc ++ le_bytes 4 (Z.of_nat (List.length (data acc))) ++ data acc /\
  (List.length out <= 1000)%nat.
Proof.
  unfold encodeIdlAccount.
  change (encode IDL_ACCOUNT_LAYOUT (accountValue acc))
    with (chunks <-
            (a <- (if Nat.eqb (List.length (authority acc)) 32
                   then Ok (authority acc) else Err TypeError_Value) ;;
             bs <- (d <- encode_blob (data acc) ;; bs <- Ok [] ;; Ok (d :: bs)) ;;
             Ok (a :: bs)) ;;
          Ok (List.concat chunks)).
  destruct (Nat.eqb_spec (List.length (authority acc)) 32) as [Hauth|];
    [|discriminate].
  unfold encode_blob.
  destruct (Z.of_nat (List.length (data acc)) <? 2 ^ 32); [|discriminate].
  cbn [bind List.concat]. rewrite app_nil_r.
  destruct (Nat.leb_spec
              (List.length (authority acc
                            ++ le_bytes 4 (Z.of_nat (List.length (data acc)))
                            ++ data acc)) 1000) as [Hle|]; [|discriminate].
  intros H.
  assert (Hout : out = authority acc
                       ++ le_bytes 4 (Z.of_nat (List.length (data acc)))
                       ++ data acc) by congruence.
  rewrite !length_app, length_le_bytes, Hauth in Hle.
  repeat split; [exact Hauth|lia|exact Hout|].
  rewrite Hout, !length_app, length_le_bytes, Hauth. lia.
Qed.

(** A use of X13: an account with two bytes of data. *)
Lemma encodeIdlAccount_returns_only_within_buffer_witness :
  (List.length [x0a; x0b] <= 964)%nat /\
  (List.length (repeat x01 32 ++ [x02; x00; x00; x00] ++ [x0a; x0b]) <= 1000)%nat.
Proof.
  destruct (encodeIdlAccount_returns_only_within_buffer
              (mkIdlProgramAccount (repeat x01 32) [x0a; x0b])
              (repeat x01 32 ++ [x02; x00; x00; x00] ++ [x0a; x0b]) eq_refl)
    as (_ & Hdata & _ & Hout).
  split; [exact Hdata|exact Hout].
Defined.

(** X14: [decodeIdlAccount] has no such bound and does not look past the
    data: from the bytes of an account, with data of any length below
    2^32 and followed by any further bytes, it returns the account. *)
Theorem decodeIdlAccount_ignores_trailing_bytes (acc : IdlProgramAccount)
    (trailing : list byte) :
  List.length (authority acc) = 32%nat ->
  Z.of_nat (List.length (data acc)) < 2 ^ 32 ->
  decodeIdlAccount
    (authority acc ++ le_bytes 4 (Z.of_nat (List.length (data acc)))
     ++ data acc ++ trailing)
  = Ok acc.
Proof.
  intros Hauth Hlt. unfold decodeIdlAccount.
  change (decode IDL_ACCOUNT_LAYOUT ?b)
    with (r <- (r0 <- take 32 b ;; Ok (VPublicKey (fst r0), snd r0)) ;;
          decodeFields decode [borsh_vecU8 (Some "data")] (snd r)
            (assign "authority" (fst r) [])).
  rewrite take_app by assumption. cbn [bind fst snd decodeFields].
  change (decode (borsh_vecU8 (Some "data")) ?b)
    with (r <- decode_blob b ;; Ok (VBuffer (fst r), snd r)).
  rewrite app_assoc.
  rewrite (decode_blob_encode_blob (data acc) _ trailing).
  - destruct acc; reflexivity.
  - unfold encode_blob.
    replace (Z.of_nat (List.length (data acc)) <? 2 ^ 32) with true
      by (symmetry; apply Z.ltb_lt; assumption).
    reflexivity.
Qed.

(** A use of X14: an account followed by the zero bytes that pad it. *)
Lemma decodeIdlAccount_ignores_trailing_bytes_witness :
  decodeIdlAccount
    (repeat x01 32 ++ [x02; x00; x00; x00] ++ [x0a; x0b] ++ repeat x00 10)
  = Ok (mkIdlProgramAccount (repeat x01 32) [x0a; x0b]).
Proof.
  apply (decodeIdlAccount_ignores_trailing_bytes
           (mkIdlProgramAccount (repeat x01 32) [x0a; x0b]) (repeat x00 10)).
  - reflexivity.
  - simpl. lia.
Defined.

(** ** The estimated size and the number of bytes written *)

Lemma encode_bool_length (p : option string) (v : Value) (bs : list byte) :
  encode (borsh_bool p) v = Ok bs -> List.length bs = 1%nat.
Proof.
  destruct v; try discriminate. intros H. injection H as <-. reflexivity.
Qed.

Lemma encode_uint_length (span : nat) (p : option string) (v : Value)
    (bs : list byte) :
  encode (borsh_uint span p) v = Ok bs -> List.length bs = span.
Proof.
  destruct v; try discriminate. cbn [encode].
  destruct (_ && _); [|discriminate].
  intros H. assert (Hbs : bs = le_bytes span z) by congruence.
  rewrite Hbs. apply length_le_bytes.
Qed.

Lemma encode_sint_length (span : nat) (p : option string) (v : Value)
    (bs : list byte) :
  encode (borsh_sint span p) v = Ok bs -> List.length bs = span.
Proof.
  destruct v; try discriminate. cbn [encode].
  destruct (_ && _); [|discriminate].
  intros H.
  assert (Hbs : bs = le_bytes span (z mod 2 ^ (8 * Z.of_nat span))) by congruence.
  rewrite Hbs. apply length_le_bytes.
Qed.

Lemma encode_publicKey_length (p : option string) (v : Value) (bs : list byte) :
  encode (borsh_publicKey p) v = Ok bs -> List.length bs = 32%nat.
Proof.
  destruct v; try discriminate. cbn [encode].
  destruct (Nat.eqb_spec (List.length bytes) 32) as [Hlen|]; [|discriminate].
  intros H. injection H as <-. exact Hlen.
Qed.

Lemma length_concat_uniform (k : nat) (chunks : list (list byte)) :
  Forall (fun c => List.length c = k) chunks ->
  List.length (List.concat chunks) = (List.length chunks * k)%nat.
Proof.
  induction 1 as [|c chunks Hc _ IH]; [reflexivity|].
  simpl. rewrite length_app, Hc, IH. reflexivity.
Qed.

(** A product or a sum below 2^53 is the exact one, of integers. *)
Lemma num_mul_Fin_inv (a : number) (n : N) (s : Z) :
  notNegative a -> num_mul a n = Fin s -> s < 2 ^ 53 ->
  exists z, a = Fin z /\ 0 <= z /\ s = z * Z.of_N n.
Proof.
  destruct a as [z| | |]; simpl;
    try (destruct (N.eqb n 0); discriminate); try discriminate.
  intros Hz H Hs. exists z. split; [reflexivity|]. split; [exact Hz|].
  symmetry. apply (round_double_Fin_small (z * Z.of_N n) s);
    [lia|exact H|exact Hs].
Qed.

Lemma num_add_Fin_inv (a : Z) (b : number) (s : Z) :
  0 <= a -> notNegative b -> num_add (Fin a) b = Fin s -> s < 2 ^ 53 ->
  exists z, b = Fin z /\ 0 <= z /\ s = a + z.
Proof.
  destruct b as [z| | |]; simpl; try discriminate.
  intros Ha Hz H Hs. exists z. split; [reflexivity|]. split; [exact Hz|].
  symmetry. apply (round_double_Fin_small (a + z) s); [lia|exact H|exact Hs].
Qed.

Lemma sum_sizes_bound (sizes : list Z) (b : Z) :
  Forall (fun s => 0 <= s) sizes -> sum_sizes sizes < b ->
  Forall (fun s => s < b) sizes.
Proof.
  induction 1 as [|s sizes Hs Hsizes IH]; intros Hsum; constructor;
    simpl in Hsum; pose proof (sum_sizes_nonneg sizes Hsizes); [lia|].
  apply IH. lia.
Qed.

(** For a fixed-width type a size below 2^53 is the number of bytes
    written. *)
Lemma fixedWidth_field_length (camelCase : string -> string)
    (idl : Idl) (types : option (list IdlTypeDef)) (ty : IdlType) :
  forall (fuel fuel' : nat) (name : option string) (l : Layout) (s : Z)
         (v : Value) (bs : list byte),
    fixedWidth ty = true ->
    fieldLayout camelCase fuel name ty types = Ok l ->
    typeSize fuel' idl ty = Ok (Fin s) ->
    s < 2 ^ 53 ->
    encode l v = Ok bs ->
    s = Z.of_nat (List.length bs).
Proof.
  induction ty as [| | | | | | | | | | | | | |defined|inner _|inner _|inner IH size];
    intros fuel fuel' name l s v bs Hfixed Hl Hn Hlt Henc; try discriminate;
    (destruct fuel as [|fuel]; [discriminate|]);
    (destruct fuel' as [|fuel']; [discriminate|]);
    try (simpl in Hl, Hn; injection Hl as <-; injection Hn as <-;
         first [apply encode_bool_length in Henc
               |apply encode_uint_length in Henc
               |apply encode_sint_length in Henc
               |apply encode_publicKey_length in Henc];
         rewrite Henc; reflexivity).
  simpl in Hfixed.
  change (fieldLayout camelCase (S fuel) name (Array inner size) types)
    with (l0 <- fieldLayout camelCase fuel None inner types ;;
          Ok (borsh_array l0 size (option_map camelCase name))) in Hl.
  change (typeSize (S fuel') idl (Array inner size))
    with (x <- typeSize fuel' idl inner ;; Ok (num_mul x size)) in Hn.
  destruct (fieldLayout camelCase fuel None inner types) as [l0|] eqn:Hl0;
    [|discriminate].
  destruct (typeSize fuel' idl inner) as [s0|] eqn:Hs0; [|discriminate].
  unfold bind in Hl, Hn.
  assert (Hl' : l = borsh_array l0 size (option_map camelCase name)) by congruence.
  assert (Hn' : num_mul s0 size = Fin s) by congruence.
  subst l.
  destruct (num_mul_Fin_inv s0 size s
              (typeSize_notNegative idl fuel' inner s0 Hs0) Hn' Hlt)
    as (z & -> & Hz & ->).
  destruct v; try discriminate. cbn [encode] in Henc.
  destruct (N.eqb_spec (N.of_nat (List.length items)) size) as [Hsize|];
    [|discriminate].
  destruct (mapM (encode l0) items) as [chunks|] eqn:Hchunks; [|discriminate].
  unfold bind in Henc. assert (Hbs : bs = List.concat chunks) by congruence.
  apply mapM_Ok_Forall2 in Hchunks.
  assert (Hlen : List.length chunks = List.length items).
  { clear - Hchunks. induction Hchunks; simpl; congruence. }
  destruct (Z.lt_ge_cases z (2 ^ 53)) as [Hsmall|Hlarge].
  - assert (Huniform : Forall (fun c => List.length c = Z.to_nat z) chunks).
    { clear - Hchunks IH Hfixed Hl0 Hs0 Hz Hsmall.
      induction Hchunks as [|x c items chunks Hx _ IHc]; constructor; [|exact IHc].
      rewrite (IH fuel fuel' None l0 z x c Hfixed Hl0 Hs0 Hsmall Hx).
      symmetry. apply Nat2Z.id. }
    rewrite Hbs, (length_concat_uniform _ _ Huniform), Hlen.
    rewrite <- Hsize. lia.
  - assert (Hzero : Z.of_N size = 0) by (rewrite pow2_53 in *; nia).
    assert (Hitems : items = []).
    { destruct items; [reflexivity|]. simpl in Hsize. lia. }
    subst items. inversion Hchunks; subst. rewrite Hzero. simpl. lia.
Qed.

Lemma sum_chunk_lengths (chunks : list (list byte)) :
  sum_sizes (map (fun c => Z.of_nat (List.length c)) chunks)
  = Z.of_nat (List.length (List.concat chunks)).
Proof.
  induction chunks as [|c chunks IH]; [reflexivity|].
  simpl. rewrite length_app, IH. lia.
Qed.

(** X15: for a fixed-width type, a primitive other than [Bytes] and
    [String] or an array of fixed-width elements, a size below 2^53 that
    [typeSize] returns is the number of bytes that the layout returned by
    [fieldLayout] writes for any value it encodes; and for a struct whose
    fields all have such types, a size below 2^53 that [accountSize]
    returns is the number of bytes that the layout returned by
    [typeDefLayout] writes.  A size need not be an integer: the empty
    array of arrays of 2^600 arrays of 2^600 bytes has the size [NaN], and
    its layout writes no byte. *)
Theorem fixedWidth_size_is_encoded_length (camelCase : string -> string)
    (idl : Idl) (types : option (list IdlTypeDef)) (fuel fuel' : nat) :
  (forall ty name l s v bs,
      fixedWidth ty = true ->
      fieldLayout camelCase fuel name ty types = Ok l ->
      typeSize fuel' idl ty = Ok (Fin s) ->
      s < 2 ^ 53 ->
      encode l v = Ok bs ->
      s = Z.of_nat (List.length bs)) /\
  (forall tname fields name l s v bs,
      Forall (fun f => fixedWidth (field_type f) = true) fields ->
      typeDefLayout camelCase fuel
        (mkIdlTypeDef tname (IdlTypeDefTyStruct fields)) types name = Ok l ->
      accountSize fuel' idl (mkIdlTypeDef tname (IdlTypeDefTyStruct fields))
      = Ok (Fin s) ->
      s < 2 ^ 53 ->
      encode l v = Ok bs ->
      s = Z.of_nat (List.length bs)) /\
  (let ty := Array (Array (Array U8 (2 ^ 600)) (2 ^ 600)) 0 in
   fixedWidth ty = true /\
   typeSize 4 idl ty = Ok NaN /\
   exists l, fieldLayout camelCase 4 None ty types = Ok l /\
             encode l (VArray []) = Ok []).
Proof.
  split; [|split].
  - intros ty name l s v bs. apply fixedWidth_field_length.
  - intros tname fields name l s v bs Hfixed.
    unfold typeDefLayout, typeDefLayout_body, accountSize, accountSize_body.
    cbn [typedef_type].
    set (tys := match types with Some t => t | None => [] end).
    destruct (mapM (fun field =>
                      fieldLayout camelCase fuel (Some (field_name field))
                        (field_type field) (Some tys)) fields)
      as [ls|] eqn:Hls; [|discriminate].
    destruct (mapM (fun f => typeSize fuel' idl (field_type f)) fields)
      as [sizes|] eqn:Hsizes; [|discriminate].
    unfold bind. intros Hl Hn Hlt Henc.
    assert (Hl' : l = borsh_struct ls name) by congruence.
    assert (Hn' : fold_left num_add sizes (Fin 0) = Fin s)
      by (unfold reduce_add_from0 in Hn; congruence).
    subst l. destruct v; try discriminate. cbn [encode] in Henc.
    destruct (mapM (encodeField encode props) ls) as [chunks|] eqn:Hchunks;
      [|discriminate].
    unfold bind in Henc. assert (Hbs : bs = List.concat chunks) by congruence.
    assert (Hnn : Forall notNegative sizes).
    { apply (mapM_Ok_Forall _ _ _ _
               (fun f n => typeSize_notNegative idl fuel' (field_type f) n)
               Hsizes). }
    destruct (fold_left_num_add_inv sizes 0 s ltac:(lia) Hnn Hn' Hlt)
      as (zs & -> & Hzs & ->).
    pose proof (sum_sizes_bound zs (2 ^ 53) Hzs ltac:(lia)) as Hbound.
    apply mapM_Ok_Forall2 in Hls, Hsizes, Hchunks.
    assert (Hall : zs = map (fun c => Z.of_nat (List.length c)) chunks).
    { clear - Hfixed Hls Hsizes Hchunks Hbound.
      revert zs chunks Hsizes Hchunks Hbound.
      induction Hls as [|f fl fields ls Hf _ IH];
        intros zs chunks Hsizes Hchunks Hbound.
      - destruct zs; [|inversion Hsizes].
        inversion Hchunks; subst. reflexivity.
      - destruct zs as [|z zs]; [inversion Hsizes|].
        inversion Hsizes as [|? ? ? ? Hs Hsizes']; subst.
        inversion Hchunks as [|? c ? chunks' Hc Hchunks']; subst.
        inversion Hfixed as [|? ? Hfx Hfixed']; subst.
        inversion Hbound as [|? ? Hz Hbound']; subst.
        simpl. f_equal; [|apply IH; assumption].
        unfold encodeField in Hc.
        destruct (property fl) as [p|]; [|discriminate].
        destruct (lookup p props) as [fv|]; [|discriminate].
        apply (fixedWidth_field_length camelCase idl (Some tys) (field_type f)
                 fuel fuel' (Some (field_name f)) fl z fv c Hfx Hf Hs Hz Hc). }
    rewrite Hall, sum_chunk_lengths, Hbs. lia.
  - split; [reflexivity|]. split; [vm_compute; reflexivity|].
    exists (borsh_array
              (borsh_array (borsh_array (borsh_u8 None) (2 ^ 600) None)
                 (2 ^ 600) None) 0 None).
    split; reflexivity.
Qed.

(** A use of X15: an array of three 16-bit integers takes six bytes, and
    a struct of a byte and a 32-bit integer takes five. *)
Lemma fixedWidth_size_is_encoded_length_witness :
  6 = Z.of_nat (List.length [x01; x00; x02; x00; x03; x00]) /\
  5 = Z.of_nat (List.length [x07; x2a; x00; x00; x00]).
Proof.
  destruct (fixedWidth_size_is_encoded_length (fun s => s)
              (mkIdl "0.0.0" "demo" None None) None 2 2)
    as (Hfield & Hstruct & _).
  split.
  - apply (Hfield (Array U16 3) (Some "a")
             (borsh_array (borsh_u16 None) 3 (Some "a")) 6
             (VArray [VNumber 1; VNumber 2; VNumber 3])
             [x01; x00; x02; x00; x03; x00]);
      reflexivity.
  - apply (Hstruct "P" [mkIdlField "tag" U8; mkIdlField "count" U32] None
             (borsh_struct [borsh_u8 (Some "tag"); borsh_u32 (Some "count")] None)
             5
             (VObject [("tag", VNumber 7); ("count", VNumber 42)])
             [x07; x2a; x00; x00; x00]);
      [repeat constructor|reflexivity|reflexivity|reflexivity|reflexivity].
Defined.

(** X16: for [Bytes] and [String] the size that [typeSize] returns, 1, is
    less than the number of bytes of any encoding by the layout that
    [fieldLayout] returns, which is four more than the number of bytes of
    the value. *)
Theorem variable_length_size_is_below_encoded_length
    (camelCase : string -> string) (idl : Idl)
    (types : option (list IdlTypeDef)) (fuel fuel' : nat)
    (name : option string) (ty : IdlType) (l : Layout) (v : Value)
    (bs : list byte) :
  ty = Bytes \/ ty = String ->
  fieldLayout camelCase (S fuel) name ty types = Ok l ->
  encode l v = Ok bs ->
  typeSize (S fuel') idl ty = Ok (Fin 1) /\
  (4 <= List.length bs)%nat /\
  match v with
  | VBuffer data => List.length bs = (4 + List.length data)%nat
  | VString s => List.length bs = (4 + List.length (list_byte_of_string s))%nat
  | _ => False
  end.
Proof.
  assert (Hblob : forall data out, encode_blob data = Ok out ->
                    List.length out = (4 + List.length data)%nat).
  { intros data out. unfold encode_blob.
    destruct (_ <? _); [|discriminate].
    intros H. assert (Hout : out = le_bytes 4 (Z.of_nat (List.length data)) ++ data)
      by congruence.
    rewrite Hout, length_app, length_le_bytes. reflexivity. }
  intros [-> | ->] Hl Henc; simpl in Hl; injection Hl as <-;
    (split; [reflexivity|]);
    destruct v; try discriminate; cbn [encode] in Henc;
    apply Hblob in Henc; (split; [lia|exact Henc]).
Qed.

(** A use of X16: a string of two letters takes six bytes. *)
Lemma variable_length_size_is_below_encoded_length_witness :
  typeSize 1 (mkIdl "0.0.0" "demo" None None) String = Ok (Fin 1) /\
  (4 <= List.length [x02; x00; x00; x00; x68; x69])%nat.
Proof.
  destruct (variable_length_size_is_below_encoded_length (fun s => s)
              (mkIdl "0.0.0" "demo" None None) None 0 0 (Some "s") String
              (borsh_str (Some "s")) (VString "hi")
              [x02; x00; x00; x00; x68; x69]
              (or_intror eq_refl) eq_refl eq_refl) as (H1 & H2 & _).
  split; [exact H1|exact H2].
Defined.

Lemma length_concat_bounded (k : nat) (chunks : list (list byte)) :
  Forall (fun c => (List.length c <= k)%nat) chunks ->
  (List.length (List.concat chunks) <= List.length chunks * k)%nat.
Proof.
  induction 1 as [|c chunks Hc _ IH]; [simpl; lia|].
  simpl. rewrite length_app. lia.
Qed.

Lemma boundedWidth_field_length (camelCase : string -> string)
    (idl : Idl) (types : option (list IdlTypeDef)) (ty : IdlType) :
  forall (fuel fuel' : nat) (name : option string) (l : Layout) (s : Z)
         (v : Value) (bs : list byte),
    boundedWidth ty = true ->
    fieldLayout camelCase fuel name ty types = Ok l ->
    typeSize fuel' idl ty = Ok (Fin s) ->
    s < 2 ^ 53 ->
    encode l v = Ok bs ->
    Z.of_nat (List.length bs) <= s.
Proof.
  induction ty as [| | | | | | | | | | | | | |defined|inner IH|inner _|inner IH size];
    intros fuel fuel' name l s v bs Hb Hl Hn Hlt Henc; try discriminate;
    try (apply Z.eq_le_incl; symmetry;
         eapply (fixedWidth_field_length camelCase idl types _ fuel fuel' name
                   l s v bs); [|exact Hl|exact Hn|exact Hlt|exact Henc];
         reflexivity);
    (destruct fuel as [|fuel]; [discriminate|]);
    (destruct fuel' as [|fuel']; [discriminate|]); simpl in Hb.
  - change (fieldLayout camelCase (S fuel) name (Option inner) types)
      with (l0 <- fieldLayout camelCase fuel None inner types ;;
            Ok (borsh_option l0 (option_map camelCase name))) in Hl.
    change (typeSize (S fuel') idl (Option inner))
      with (x <- typeSize fuel' idl inner ;; Ok (num_add (Fin 1) x)) in Hn.
    destruct (fieldLayout camelCase fuel None inner types) as [l0|] eqn:Hl0;
      [|discriminate].
    destruct (typeSize fuel' idl inner) as [s0|] eqn:Hs0; [|discriminate].
    unfold bind in Hl, Hn.
    assert (Hl' : l = borsh_option l0 (option_map camelCase name)) by congruence.
    assert (Hn' : num_add (Fin 1) s0 = Fin s) by congruence.
    subst l.
    destruct (num_add_Fin_inv 1 s0 s ltac:(lia)
                (typeSize_notNegative idl fuel' inner s0 Hs0) Hn' Hlt)
      as (z & -> & Hz & ->).
    assert (Hsome : forall bs0, encode l0 v = Ok bs0 -> bs = x01 :: bs0 ->
                                Z.of_nat (List.length bs) <= 1 + z).
    { intros bs0 H0 ->.
      pose proof (IH fuel fuel' None l0 z v bs0 Hb Hl0 Hs0 ltac:(lia) H0) as Hle.
      cbn [List.length]. rewrite Nat2Z.inj_succ. lia. }
    cbn [encode] in Henc.
    destruct v;
      try (destruct (encode l0 _) as [bs0|] eqn:H0; [|discriminate];
           unfold bind in Henc; apply (Hsome bs0 eq_refl); congruence).
    injection Henc as <-. cbn [List.length]. lia.
  - change (fieldLayout camelCase (S fuel) name (Array inner size) types)
      with (l0 <- fieldLayout camelCase fuel None inner types ;;
            Ok (borsh_array l0 size (option_map camelCase name))) in Hl.
    change (typeSize (S fuel') idl (Array inner size))
      with (x <- typeSize fuel' idl inner ;; Ok (num_mul x size)) in Hn.
    destruct (fieldLayout camelCase fuel None inner types) as [l0|] eqn:Hl0;
      [|discriminate].
    destruct (typeSize fuel' idl inner) as [s0|] eqn:Hs0; [|discriminate].
    unfold bind in Hl, Hn.
    assert (Hl' : l = borsh_array l0 size (option_map camelCase name)) by congruence.
    assert (Hn' : num_mul s0 size = Fin s) by congruence.
    subst l.
    destruct (num_mul_Fin_inv s0 size s
                (typeSize_notNegative idl fuel' inner s0 Hs0) Hn' Hlt)
      as (z & -> & Hz & ->).
    destruct v; try discriminate. cbn [encode] in Henc.
    destruct (N.eqb_spec (N.of_nat (List.length items)) size) as [Hsize|];
      [|discriminate].
    destruct (mapM (encode l0) items) as [chunks|] eqn:Hchunks; [|discriminate].
    unfold bind in Henc. assert (Hbs : bs = List.concat chunks) by congruence.
    apply mapM_Ok_Forall2 in Hchunks.
    assert (Hlen : List.length chunks = List.length items).
    { clear - Hchunks. induction Hchunks; simpl; congruence. }
    destruct (Z.lt_ge_cases z (2 ^ 53)) as [Hsmall|Hlarge].
    + assert (Hbound : Forall (fun c => (List.length c <= Z.to_nat z)%nat) chunks).
      { clear - Hchunks IH Hb Hl0 Hs0 Hz Hsmall.
        induction Hchunks as [|x c items chunks Hx _ IHc]; constructor;
          [|exact IHc].
        pose proof (IH fuel fuel' None l0 z x c Hb Hl0 Hs0 Hsmall Hx). lia. }
      pose proof (length_concat_bounded _ _ Hbound) as Hc.
      rewrite Hbs. rewrite Hlen in Hc. rewrite <- Hsize. nia.
    + assert (Hzero : Z.of_N size = 0) by (rewrite pow2_53 in *; nia).
      assert (Hitems : items = []).
      { destruct items; [reflexivity|]. simpl in Hsize. lia. }
      subst items. inversion Hchunks; subst. rewrite Hzero. simpl. lia.
Qed.

(** X17: for a type built from the fixed-width primitives with [Option]
    and [Array], a size below 2^53 that [typeSize] returns is enough for
    every encoding: the layout returned by [fieldLayout] never writes more
    bytes.  A size need not be an integer: that of an optional array of
    2^600 arrays of 2^600 bytes is [+Infinity]. *)
Theorem boundedWidth_size_covers_encoded_length (camelCase : string -> string)
    (idl : Idl) (types : option (list IdlTypeDef)) :
  (forall (ty : IdlType) (fuel fuel' : nat) (name : option string)
          (l : Layout) (s : Z) (v : Value) (bs : list byte),
      boundedWidth ty = true ->
      fieldLayout camelCase fuel name ty types = Ok l ->
      typeSize fuel' idl ty = Ok (Fin s) ->
      s < 2 ^ 53 ->
      encode l v = Ok bs ->
      Z.of_nat (List.length bs) <= s) /\
  (let ty := Option (Array (Array U8 (2 ^ 600)) (2 ^ 600)) in
   boundedWidth ty = true /\
   typeSize 4 idl ty = Ok PosInfinity /\
   exists l, fieldLayout camelCase 4 None ty types = Ok l /\
             encode l VNull = Ok [x00]).
Proof.
  split.
  - intros ty. apply boundedWidth_field_length.
  - split; [reflexivity|]. split; [vm_compute; reflexivity|].
    exists (borsh_option
              (borsh_array (borsh_array (borsh_u8 None) (2 ^ 600) None)
                 (2 ^ 600) None) None).
    split; reflexivity.
Qed.

(** A use of X17: an absent optional 64-bit integer takes one byte of the
    nine that are counted. *)
Lemma boundedWidth_size_covers_encoded_length_witness :
  Z.of_nat (List.length [x00]) <= 9.
Proof.
  destruct (boundedWidth_size_covers_encoded_length (fun s => s)
              (mkIdl "0.0.0" "demo" None None) None) as (H & _).
  apply (H (Option U64) 2%nat 2%nat (Some "o")
           (borsh_option (borsh_u64 None) (Some "o")) 9 VNull [x00]);
    reflexivity.
Defined.

(** ** What the results depend on *)

(** X18: a size or a layout that is returned within some call depth is
    returned, the same, within every greater depth: the results of
    [typeSize], [accountSize], [fieldLayout] and [typeDefLayout] do not
    depend on how much stack is left. *)
Theorem results_do_not_depend_on_call_depth (camelCase : string -> string)
    (idl : Idl) (fuel fuel' : nat) :
  (fuel <= fuel')%nat ->
  (forall ty n, typeSize fuel idl ty = Ok n -> typeSize fuel' idl ty = Ok n) /\
  (forall typeDef n,
      accountSize fuel idl typeDef = Ok n -> accountSize fuel' idl typeDef = Ok n) /\
  (forall name ty types l,
      fieldLayout camelCase fuel name ty types = Ok l ->
      fieldLayout camelCase fuel' name ty types = Ok l) /\
  (forall typeDef types name l,
      typeDefLayout camelCase fuel typeDef types name = Ok l ->
      typeDefLayout camelCase fuel' typeDef types name = Ok l).
Proof.
  intros Hle. split; [|split; [|split]].
  - intros ty n. apply typeSize_fuel_le, Hle.
  - intros typeDef n. apply accountSize_fuel_le, Hle.
  - intros name ty types l. apply fieldLayout_fuel_le, Hle.
  - intros typeDef types name l. unfold typeDefLayout.
    apply typeDefLayout_body_mono.
    intros n ty l'. apply fieldLayout_fuel_le, Hle.
Qed.

(** A use of X18: a size and a layout obtained at depth 2, at depth 50. *)
Lemma results_do_not_depend_on_call_depth_witness :
  typeSize 50 (mkIdl "0.0.0" "demo" None None) (Option U32) = Ok (Fin 5) /\
  fieldLayout (fun s => s) 50 (Some "o") (Option U32) None
  = Ok (borsh_option (borsh_u32 None) (Some "o")).
Proof.
  destruct (results_do_not_depend_on_call_depth (fun s => s)
              (mkIdl "0.0.0" "demo" None None) 2 50 ltac:(lia))
    as (Hsize & _ & Hlayout & _).
  split.
  - apply Hsize. reflexivity.
  - apply Hlayout. reflexivity.
Defined.

Lemma accountSize_body_ext (t1 t2 : IdlType -> result number)
    (typeDef : IdlTypeDef) :
  (forall ty, t1 ty = t2 ty) ->
  accountSize_body t1 typeDef = accountSize_body t2 typeDef.
Proof.
  intros Ht. unfold accountSize_body.
  destruct (typedef_type typeDef) as [fields|variants].
  - rewrite (mapM_ext _ (fun f => t2 (field_type f))); [reflexivity|].
    intros f _. apply Ht.
  - rewrite (mapM_ext _ (variantSize t2)); [reflexivity|].
    intros v _. unfold variantSize.
    destruct (variant_fields v) as [fields|]; [|reflexivity].
    rewrite (mapM_ext _ (enumFieldSize t2)); [reflexivity|].
    intros [fld|t] _; simpl; [apply Ht|reflexivity].
Qed.

(** X19: the size estimator reads nothing of the IDL but its [types]: two
    IDLs with the same [types] give the same result, size or exception,
    for every type and every type definition; the definitions listed
    under [accounts] are not looked up. *)
Theorem sizes_depend_on_types_only (idl idl' : Idl) :
  idl_types idl = idl_types idl' ->
  forall fuel,
    (forall ty, typeSize fuel idl ty = typeSize fuel idl' ty) /\
    (forall typeDef, accountSize fuel idl typeDef = accountSize fuel idl' typeDef).
Proof.
  intros Htypes.
  assert (Hts : forall fuel ty, typeSize fuel idl ty = typeSize fuel idl' ty).
  { induction fuel as [|fuel IH]; intros ty; [reflexivity|].
    destruct ty as [| | | | | | | | | | | | | |defined|inner|inner|inner size];
      try reflexivity.
    - cbn [typeSize]. rewrite <- Htypes.
      destruct (match idl_types idl with
                | Some types => filterByName defined types
                | None => []
                end) as [|typeDef [|? ?]]; try reflexivity.
      apply accountSize_body_ext, IH.
    - simpl. rewrite IH. reflexivity.
    - simpl. rewrite IH. reflexivity. }
  intros fuel. split; [apply Hts|].
  intros typeDef. apply accountSize_body_ext, Hts.
Qed.

(** A use of X19: a reference to a definition that is listed under
    [accounts] only is not found. *)
Lemma sizes_depend_on_types_only_witness :
  let counter := mkIdlTypeDef "Counter" (IdlTypeDefTyStruct [mkIdlField "n" U64]) in
  typeSize 2 (mkIdl "0.0.0" "demo" (Some [counter]) None) (Defined "Counter")
  = Err (IdlError_TypeNotFound "Counter").
Proof.
  intros counter.
  destruct (sizes_depend_on_types_only
              (mkIdl "0.0.0" "demo" (Some [counter]) None)
              (mkIdl "0.0.0" "demo" None None) eq_refl 2%nat) as (H & _).
  rewrite H. reflexivity.
Defined.

Lemma inDomain_fits (camelCase : string -> string)
    (types : option (list IdlTypeDef)) (ty : IdlType) :
  forall fuel name l v,
    fieldLayout camelCase fuel name ty types = Ok l ->
    inDomain ty v -> fits l v.
Proof.
  induction ty as [| | | | | | | | | | | | | |defined|inner IH|inner _|inner IH size];
    intros fuel name l v Hl Hv;
    (destruct fuel as [|fuel]; [discriminate|]);
    try (simpl in Hl; injection Hl as <-; exact Hv).
  - contradiction.
  - change (fieldLayout camelCase (S fuel) name (Option inner) types)
      with (l0 <- fieldLayout camelCase fuel None inner types ;;
            Ok (borsh_option l0 (option_map camelCase name))) in Hl.
    destruct (fieldLayout camelCase fuel None inner types) as [l0|] eqn:Hl0;
      [|discriminate].
    unfold bind in Hl.
    assert (Hl' : l = borsh_option l0 (option_map camelCase name)) by congruence.
    subst l. destruct Hv as [->|Hv]; [left; reflexivity|].
    right. apply (IH fuel None l0 v Hl0 Hv).
  - discriminate.
  - change (fieldLayout camelCase (S fuel) name (Array inner size) types)
      with (l0 <- fieldLayout camelCase fuel None inner types ;;
            Ok (borsh_array l0 size (option_map camelCase name))) in Hl.
    destruct (fieldLayout camelCase fuel None inner types) as [l0|] eqn:Hl0;
      [|discriminate].
    unfold bind in Hl.
    assert (Hl' : l = borsh_array l0 size (option_map camelCase name)) by congruence.
    subst l. destruct Hv as (items & -> & Hlen & Hitems).
    exists items. split; [reflexivity|]. split; [exact Hlen|].
    clear Hlen. induction Hitems as [|x items Hx _ IHitems]; constructor;
      [apply (IH fuel None l0 x Hl0 Hx)|exact IHitems].
Qed.

(** X20: for a type that refers to no type definition, the layout that
    [fieldLayout] returns gives back every value of the type: the value is
    encoded, and decoding the bytes, whatever follows them, returns the
    value and leaves what follows. *)
Theorem fieldLayout_roundtrip_in_domain (camelCase : string -> string)
    (fuel : nat) (name : option string) (ty : IdlType)
    (types : option (list IdlTypeDef)) (l : Layout) (v : Value) :
  fieldLayout camelCase fuel name ty types = Ok l ->
  inDomain ty v ->
  exists bs, encode l v = Ok bs /\
             forall rest, decode l (bs ++ rest) = Ok (v, rest).
Proof.
  intros Hl Hv.
  exact (layout_roundtrip l v (inDomain_fits camelCase types ty fuel name l v Hl Hv)).
Qed.

(** A use of X20: an array of two optional signed 16-bit integers. *)
Lemma fieldLayout_roundtrip_in_domain_witness :
  let v := VArray [VNumber (-2); VNull] in
  exists bs,
    encode (borsh_array (borsh_option (borsh_i16 None) None) 2 (Some "a")) v
    = Ok bs /\
    forall rest,
      decode (borsh_array (borsh_option (borsh_i16 None) None) 2 (Some "a"))
             (bs ++ rest) = Ok (v, rest).
Proof.
  intros v.
  apply (fieldLayout_roundtrip_in_domain (fun s => s) 3 (Some "a")
           (Array (Option I16) 2) None).
  - reflexivity.
  - exists [VNumber (-2); VNull]. split; [reflexivity|]. split; [reflexivity|].
    constructor; [|constructor; [left; reflexivity|constructor]].
    right. exists (-2). split; [reflexivity|]. simpl. lia.
Defined.

(** ** The preimage of the discriminator *)

Lemma lowerCase_alnum_not_colon (c : ascii) :
  SnakeCase.is_alnum c = true -> SnakeCase.lowerCase c <> ":"%char.
Proof.
  destruct c as [[] [] [] [] [] [] [] []]; vm_compute; intros H;
    try discriminate H; discriminate.
Qed.

Lemma words_alnum (s cur : list ascii) :
  Forall (fun c => SnakeCase.is_alnum c = true) cur ->
  Forall (Forall (fun c => SnakeCase.is_alnum c = true))
         (SnakeCase.words cur s).
Proof.
  revert cur. induction s as [|c s IH]; intros cur Hcur; simpl.
  - destruct cur; constructor; [|constructor].
    apply Forall_rev. exact Hcur.
  - destruct (SnakeCase.is_alnum c) eqn:Hc.
    + apply IH. constructor; assumption.
    + destruct cur.
      * apply IH. constructor.
      * constructor; [apply Forall_rev; exact Hcur|]. apply IH. constructor.
Qed.

Lemma join_no_colon (ws : list (list ascii)) :
  Forall (Forall (fun c => c <> ":"%char)) ws ->
  Forall (fun c => c <> ":"%char) (SnakeCase.join "_"%char ws).
Proof.
  induction 1 as [|w ws Hw Hws IH]; simpl; [constructor|].
  destruct ws as [|w' ws]; [exact Hw|].
  apply Forall_app. split; [exact Hw|]. constructor; [discriminate|exact IH].
Qed.

Lemma snakeCase_no_colon (input : string) :
  ~ In ":"%char (list_ascii_of_string (SnakeCase.snakeCase input)).
Proof.
  unfold SnakeCase.snakeCase. rewrite list_ascii_of_string_of_list_ascii.
  intros Hin.
  assert (H : Forall (fun c => c <> ":"%char)
                (SnakeCase.join "_"%char
                   (map (map SnakeCase.lowerCase)
                      (SnakeCase.words []
                         (SnakeCase.split2
                            (SnakeCase.split1 (list_ascii_of_string input))))))).
  { apply join_no_colon. apply Forall_map.
    eapply Forall_impl; [|apply words_alnum; constructor].
    intros w Hw. apply Forall_map.
    eapply Forall_impl; [|exact Hw].
    intros c. apply lowerCase_alnum_not_colon. }
  rewrite Forall_forall in H. exact (H _ Hin eq_refl).
Qed.

Lemma list_ascii_of_string_app (a b : string) :
  list_ascii_of_string (a ++ b)%string
  = list_ascii_of_string a ++ list_ascii_of_string b.
Proof.
  induction a as [|c a IH]; simpl; [reflexivity|]. rewrite IH. reflexivity.
Qed.

Lemma split_at_last_colon (a b x y : list ascii) :
  ~ In ":"%char x -> ~ In ":"%char y ->
  a ++ ":"%char :: x = b ++ ":"%char :: y -> a = b /\ x = y.
Proof.
  intros Hx Hy. revert b. induction a as [|c a IH]; intros [|c' b] H; simpl in H.
  - injection H as ->. auto.
  - injection H as <- ->. exfalso. apply Hx. apply in_or_app. right. left.
    reflexivity.
  - injection H as -> <-. exfalso. apply Hy. apply in_or_app. right. left.
    reflexivity.
  - injection H as -> H. destruct (IH b H) as (-> & ->). auto.
Qed.

(** X21: the text that [sighash] hashes determines the name space and the
    name in snake case: the snake form of a name has no colon, so two
    calls hash the same text only if their name spaces are equal and
    their names have the same snake form; then, and only then apart from
    a collision of the digest, they return the same discriminator. *)
Theorem sighash_preimage_is_unambiguous (nameSpace nameSpace' ixName ixName' : string) :
  (nameSpace ++ ":" ++ SnakeCase.snakeCase ixName)%string
  = (nameSpace' ++ ":" ++ SnakeCase.snakeCase ixName')%string ->
  nameSpace = nameSpace' /\
  SnakeCase.snakeCase ixName = SnakeCase.snakeCase ixName' /\
  sighash nameSpace ixName = sighash nameSpace' ixName'.
Proof.
  intros H.
  assert (Hsig : sighash nameSpace ixName = sighash nameSpace' ixName')
    by (unfold sighash; rewrite H; reflexivity).
  apply (f_equal list_ascii_of_string) in H.
  rewrite !list_ascii_of_string_app in H. simpl in H.
  apply split_at_last_colon in H; try apply snakeCase_no_colon.
  destruct H as (Hns & Hname).
  apply (f_equal string_of_list_ascii) in Hns, Hname.
  rewrite !string_of_list_ascii_of_string in Hns, Hname.
  auto.
Qed.

(** A use of X21: a name in camel case and its snake form in the same
    name space. *)
Lemma sighash_preimage_is_unambiguous_witness :
  sighash "global" "closeAccount" = sighash "global" "close_account".
Proof.
  apply (sighash_preimage_is_unambiguous "global" "global"
           "closeAccount" "close_account").
  reflexivity.
Defined.
